(** * The TapPostgres saga of the admin console

    A shallow embedding of
    [admin-console/app/containers/TapPage/TapPostgres/saga.js]: the two
    worker generators [getStreams] and [updateStreamToReplicate], the root
    saga [tapPostgresData] that installs one [takeLatest] watcher per
    trigger kind, and the part of the redux-saga runtime the three of them
    run on (the effects [call], [put], [select], and the [takeLatest] loop
    with its [cancel] and [fork]). *)

From stdpp Require Import base decidable option list strings gmap fin_maps.

Local Open Scope string_scope.
Local Open Scope list_scope.

(** ** JavaScript values *)

(** The data fragment of JavaScript values that travels through the saga:
    action fields, response payloads and errors. Numbers are left out
    (their text form is a floating-point matter); an object is the list of
    its own enumerable properties in enumeration order. *)
#[warnings="-register-all"]
Inductive value : Type :=
| VUndefined
| VNull
| VBool (b : bool)
| VStr (s : string)
| VArr (items : list value)
| VObj (props : list (string * value)).

(** [sep.join(parts)]. *)
Fixpoint join (sep : string) (parts : list string) : string :=
  match parts with
  | [] => ""
  | [p] => p
  | p :: rest => p +:+ sep +:+ join sep rest
  end.

(** The abstract operation ToString, which a template literal applies to
    each of its substitutions. An array is joined with commas, [null] and
    [undefined] members giving the empty text; a plain object gives
    [[object Object]]. *)
Fixpoint ToString (v : value) : string :=
  match v with
  | VUndefined => "undefined"
  | VNull => "null"
  | VBool true => "true"
  | VBool false => "false"
  | VStr s => s
  | VArr items =>
      join "," (map (fun x => match x with
                              | VUndefined | VNull => ""
                              | _ => ToString x
                              end) items)
  | VObj _ => "[object Object]"
  end.

Definition dquote : string := String (Ascii.ascii_of_nat 34) "".

Definition hex_digit (n : N) : string :=
  match n with
  | 0 => "0" | 1 => "1" | 2 => "2" | 3 => "3" | 4 => "4" | 5 => "5"
  | 6 => "6" | 7 => "7" | 8 => "8" | 9 => "9" | 10 => "a" | 11 => "b"
  | 12 => "c" | 13 => "d" | 14 => "e" | _ => "f"
  end%N.

(** One code unit of QuoteJSONString. *)
Definition quote_char (c : Ascii.ascii) : string :=
  let n := Ascii.N_of_ascii c in
  if (n =? 8)%N then "\b"
  else if (n =? 9)%N then "\t"
  else if (n =? 10)%N then "\n"
  else if (n =? 12)%N then "\f"
  else if (n =? 13)%N then "\r"
  else if (n =? 34)%N then "\" +:+ dquote
  else if (n =? 92)%N then "\\"
  else if (n <? 32)%N then "\u00" +:+ hex_digit (n / 16) +:+ hex_digit (n mod 16)
  else String c "".

Fixpoint quote_body (s : string) : string :=
  match s with
  | EmptyString => ""
  | String c rest => quote_char c +:+ quote_body rest
  end.

Definition QuoteJSONString (s : string) : string :=
  dquote +:+ quote_body s +:+ dquote.

(** SerializeJSONProperty without indentation: [None] stands for the
    [undefined] that JSON gives to a value it cannot encode. In an array
    such a member is written [null]; in an object the property is left out. *)
Fixpoint SerializeJSON (v : value) : option string :=
  match v with
  | VUndefined => None
  | VNull => Some "null"
  | VBool true => Some "true"
  | VBool false => Some "false"
  | VStr s => Some (QuoteJSONString s)
  | VArr items =>
      Some ("[" +:+ join "," (map (fun x => default "null" (SerializeJSON x)) items) +:+ "]")
  | VObj props =>
      Some ("{" +:+
            join "," (omap (fun kv => match SerializeJSON (snd kv) with
                                      | Some j => Some (QuoteJSONString (fst kv) +:+ ":" +:+ j)
                                      | None => None
                                      end) props)
            +:+ "}")
  end.

(** [JSON.stringify(v)]: a string, or [undefined]. *)
Definition JSON_stringify (v : value) : value :=
  match SerializeJSON v with
  | Some j => VStr j
  | None => VUndefined
  end.

(** ** Actions *)

(** Modelled from the spec: the constants [LOAD_STREAMS] and
    [UPDATE_STREAM_TO_REPLICATE] of [./constants] are not part of the
    sources at hand. The spec has two trigger kinds; the type of an action
    is one of the two, or the type of some other action of the application. *)
Inductive action_type : Type :=
| LOAD_STREAMS
| UPDATE_STREAM_TO_REPLICATE
| OTHER_ACTION (name : string).

#[global] Instance action_type_eq_dec : EqDecision action_type.
Proof. solve_decision. Defined.

(** An action as the workers see it: its [type] and the four properties
    they read. A property the object does not have reads as [undefined]. *)
Record action : Type := Action {
  type : action_type;
  targetId : value;
  tapId : value;
  streamId : value;
  params : value
}.

(** Modelled from the spec: the action creators of [./actions] are not part
    of the sources at hand. The spec lists four terminal events, each
    carrying one payload: StreamsLoaded, StreamsLoadError, UpdateDone and
    UpdateError. None of them is a trigger. *)
Inductive outcome : Type :=
| streamsLoaded (streams : value)
| streamsLoadedError (error : value)
| updateStreamToReplicateDone (response : value)
| updateStreamToReplicateError (error : value).

Definition is_success (o : outcome) : bool :=
  match o with
  | streamsLoaded _ | updateStreamToReplicateDone _ => true
  | _ => false
  end.

Definition is_failure (o : outcome) : bool :=
  match o with
  | streamsLoadedError _ | updateStreamToReplicateError _ => true
  | _ => false
  end.

(** ** The HTTP collaborator *)

(** The second argument of [request(url, options)]. *)
Record options : Type := Options {
  method : string;
  headers : list (string * string);
  body : value
}.

(** The arguments of one [call(request, ...)]. *)
Record request_args : Type := Request {
  requestURL : string;
  request_options : option options
}.

(** Modelled from the spec: [utils/request] is not part of the sources at
    hand. Called without options it issues a read request (GET); its
    result is a promise, settled later with a parsed payload or an error. *)
Definition http_method (r : request_args) : string :=
  match request_options r with
  | None => "GET"
  | Some o => method o
  end.

(** ** Generators as effect trees *)

(** A generator that yields effects: [Call] suspends on the promise of
    [request(...)] and resumes with its payload ([k]) or has its error
    thrown at the [yield] ([h]); [Put] dispatches an outcome; [Select]
    reads the store. [Throw] is an exception on its way out. *)
Inductive saga (A : Type) : Type :=
| Return (a : A)
| Throw (e : value)
| Call (r : request_args) (k : value -> saga A) (h : value -> saga A)
| Put (o : outcome) (k : saga A)
| Select (selector : value -> value) (k : value -> saga A).

Arguments Return {A} a.
Arguments Throw {A} e.
Arguments Call {A} r k h.
Arguments Put {A} o k.
Arguments Select {A} selector k.

Fixpoint bind {A B : Type} (m : saga A) (f : A -> saga B) : saga B :=
  match m with
  | Return a => f a
  | Throw e => Throw e
  | Call r k h => Call r (fun v => bind (k v) f) (fun e => bind (h e) f)
  | Put o k => Put o (bind k f)
  | Select sel k => Select sel (fun v => bind (k v) f)
  end.

(** [try { m } catch (err) { handler err }]. *)
Fixpoint try_catch {A : Type} (m : saga A) (handler : value -> saga A) : saga A :=
  match m with
  | Return a => Return a
  | Throw e => handler e
  | Call r k h =>
      Call r (fun v => try_catch (k v) handler) (fun e => try_catch (h e) handler)
  | Put o k => Put o (try_catch k handler)
  | Select sel k => Select sel (fun v => try_catch (k v) handler)
  end.

(** [yield call(request, url, options)]. *)
Definition call (r : request_args) : saga value := Call r Return Throw.

(** [yield put(o)]. *)
Definition put (o : outcome) : saga unit := Put o (Return tt).

(** [yield select(selector)]. *)
Definition select (selector : value -> value) : saga value := Select selector Return.

Notation "x <- m ;; k" := (bind m (fun x => k))
  (at level 100, m at next level, right associativity).
Notation "'TRY' m 'CATCH' err => handler" := (try_catch m (fun err => handler))
  (at level 10, m at level 100, err name, handler at level 200).

(** ** The workers *)

Definition getStreams (action : action) : saga unit :=
  let requestURL :=
    "http://localhost:5000/targets/" +:+ ToString (targetId action)
      +:+ "/taps/" +:+ ToString (tapId action) +:+ "/streams" in
  TRY
    (streams <- call (Request requestURL None);;
     put (streamsLoaded streams))
  CATCH err =>
    put (streamsLoadedError err).

Definition updateStreamToReplicate (action : action) : saga unit :=
  let requestURL :=
    "http://localhost:5000/targets/" +:+ ToString (targetId action)
      +:+ "/taps/" +:+ ToString (tapId action)
      +:+ "/streams/" +:+ ToString (streamId action) in
  TRY
    (response <- call (Request requestURL
                         (Some {| method := "PATCH";
                                  headers := [("Content-Type", "application/json")];
                                  body := JSON_stringify (params action) |}));;
     put (updateStreamToReplicateDone response))
  CATCH err =>
    put (updateStreamToReplicateError err).

(** ** The runtime *)

(** A forked task is suspended at its [call] (the continuations wait for the
    promise), has returned, was cancelled, or died of an uncaught error. *)
Inductive status : Type :=
| Running (k : value -> saga unit) (h : value -> saga unit)
| Completed
| Cancelled
| Aborted (e : value).

(** What reaches the store: an action of the view or an outcome put by a
    task. *)
Inductive dispatched : Type :=
| FromView (a : action)
| FromSaga (o : outcome).

(** The Redux store: its state tree and its root reducer. *)
Record Store : Type := {
  getState : value;
  reducer : value -> dispatched -> value
}.

Definition reduce (st : Store) (d : dispatched) : Store :=
  {| getState := reducer st (getState st) d; reducer := reducer st |}.

(** [takeLatest(pattern, worker)]. *)
Definition watcher : Type := action_type * (action -> saga unit).

Definition takeLatest (pattern : action_type) (worker : action -> saga unit) : watcher :=
  (pattern, worker).

(** The state of the saga middleware. [lastTask] holds, per watcher (by its
    position in the root saga), the variable of that name in the
    [takeLatest] loop; [requests] and [emitted] record, with the task that
    made them, the calls to [request] and the outcomes put so far. *)
Record state : Type := State {
  store : Store;
  alive : bool;
  nextId : nat;
  tasks : gmap nat status;
  lastTask : gmap nat nat;
  requests : list (nat * request_args);
  emitted : list (nat * outcome)
}.

Definition set_task (tid : nat) (st : status) (s : state) : state :=
  {| store := store s; alive := alive s; nextId := nextId s;
     tasks := <[tid := st]> (tasks s); lastTask := lastTask s;
     requests := requests s; emitted := emitted s |}.

Definition log_request (tid : nat) (r : request_args) (s : state) : state :=
  {| store := store s; alive := alive s; nextId := nextId s;
     tasks := tasks s; lastTask := lastTask s;
     requests := requests s ++ [(tid, r)]; emitted := emitted s |}.

(** The outcome goes to the store and is seen by the observers; the
    dispatch is taken to return normally. The outcome is no trigger, so no
    watcher takes it. *)
Definition dispatch_outcome (tid : nat) (o : outcome) (s : state) : state :=
  {| store := reduce (store s) (FromSaga o); alive := alive s; nextId := nextId s;
     tasks := tasks s; lastTask := lastTask s;
     requests := requests s; emitted := emitted s ++ [(tid, o)] |}.

Definition stop (st : status) : status :=
  match st with
  | Running _ _ => Cancelled
  | _ => st
  end.

(** An error that leaves a forked task unhandled goes up to the root saga,
    which ends and cancels all that still runs under it. *)
Definition terminate_root (s : state) : state :=
  {| store := store s; alive := false; nextId := nextId s;
     tasks := stop <$> tasks s; lastTask := lastTask s;
     requests := requests s; emitted := emitted s |}.

(** Run task [tid] from [m] to its next suspension or to its end. *)
Fixpoint exec (tid : nat) (m : saga unit) (s : state) : state :=
  match m with
  | Return _ => set_task tid Completed s
  | Throw e => terminate_root (set_task tid (Aborted e) s)
  | Call r k h => set_task tid (Running k h) (log_request tid r s)
  | Put o k => exec tid k (dispatch_outcome tid o s)
  | Select selector k => exec tid (k (selector (getState (store s)))) s
  end.

(** [yield cancel(lastTask)], guarded by [if (lastTask)]: a task that still
    runs is detached from its promise; one that has ended is left alone. *)
Definition cancel (t : option nat) (s : state) : state :=
  match t with
  | None => s
  | Some tid =>
      match tasks s !! tid with
      | Some (Running _ _) => set_task tid Cancelled s
      | _ => s
      end
  end.

(** [lastTask = yield fork(worker, action)] in watcher [i]: the new task
    runs at once up to its first suspension. *)
Definition fork (i : nat) (m : saga unit) (s : state) : state :=
  let tid := nextId s in
  exec tid m
    {| store := store s; alive := alive s; nextId := S tid;
       tasks := tasks s; lastTask := <[i := tid]> (lastTask s);
       requests := requests s; emitted := emitted s |}.

(** One turn of the loop of [takeLatest] for watcher [i] on action [a]:
    [take(pattern)], then cancel the last task, then fork the worker. *)
Definition takeLatest_turn (i : nat) (w : watcher) (a : action) (s : state) : state :=
  if alive s && bool_decide (type a = fst w) then
    fork i (snd w a) (cancel (lastTask s !! i) s)
  else s.

(** The action is offered to every watcher, in the order they were started. *)
Fixpoint offer (a : action) (i : nat) (ws : list watcher) (s : state) : state :=
  match ws with
  | [] => s
  | w :: rest => offer a (S i) rest (takeLatest_turn i w a s)
  end.

(** What happens to the middleware: the view dispatches an action, or the
    promise of a task's call is fulfilled with a payload or rejected with
    an error. *)
Inductive event : Type :=
| Dispatch (a : action)
| Resolve (tid : nat) (payload : value)
| Reject (tid : nat) (err : value).

Definition to_store (a : action) (s : state) : state :=
  {| store := reduce (store s) (FromView a); alive := alive s; nextId := nextId s;
     tasks := tasks s; lastTask := lastTask s;
     requests := requests s; emitted := emitted s |}.

(** Settling the promise of a task resumes it only if it still waits. *)
Definition step (root : list watcher) (s : state) (ev : event) : state :=
  match ev with
  | Dispatch a => offer a 0 root (to_store a s)
  | Resolve tid payload =>
      match tasks s !! tid with
      | Some (Running k _) => exec tid (k payload) s
      | _ => s
      end
  | Reject tid err =>
      match tasks s !! tid with
      | Some (Running _ h) => exec tid (h err) s
      | _ => s
      end
  end.

Definition run (root : list watcher) (evs : list event) (s : state) : state :=
  fold_left (step root) evs s.

(** ** The root saga *)

Definition tapPostgresData : list watcher :=
  [ takeLatest LOAD_STREAMS getStreams;
    takeLatest UPDATE_STREAM_TO_REPLICATE updateStreamToReplicate ].

Definition init (st : Store) : state :=
  {| store := st; alive := true; nextId := 0;
     tasks := ∅; lastTask := ∅; requests := []; emitted := [] |}.

(** ** Vocabulary of the statements *)

(** The task still waits for its promise. *)
Definition running (tid : nat) (s : state) : bool :=
  match tasks s !! tid with
  | Some (Running _ _) => true
  | _ => false
  end.

(** The outcomes task [tid] has put so far, oldest first. *)
Definition outcomes_of (tid : nat) (s : state) : list outcome :=
  omap (fun p => if Nat.eqb (fst p) tid then Some (snd p) else None) (emitted s).

(** The requests a step adds to the log. *)
Definition issued (s s' : state) : list request_args :=
  snd <$> drop (length (requests s)) (requests s').

(** The events that leave the task [tid] of kind [ty] alone: they neither
    settle its promise nor bring a newer trigger of its kind. *)
Definition quiet (ty : action_type) (tid : nat) (ev : event) : bool :=
  match ev with
  | Dispatch a => negb (bool_decide (type a = ty))
  | Resolve t _ | Reject t _ => negb (Nat.eqb t tid)
  end.

(** The position of the watcher of each trigger kind in [tapPostgresData],
    and the outcomes its worker reports. *)
Definition watcher_of (ty : action_type) : option nat :=
  match ty with
  | LOAD_STREAMS => Some 0
  | UPDATE_STREAM_TO_REPLICATE => Some 1
  | OTHER_ACTION _ => None
  end.

Definition success_event (i : nat) : value -> outcome :=
  match i with
  | 0 => streamsLoaded
  | _ => updateStreamToReplicateDone
  end.

Definition failure_event (i : nat) : value -> outcome :=
  match i with
  | 0 => streamsLoadedError
  | _ => updateStreamToReplicateError
  end.

(** The continuations of a worker of watcher [i] at its [call]: put the
    success event with the payload, or the failure event with the error,
    and return. *)
Definition owned (i : nat) (k h : value -> saga unit) : Prop :=
  i < 2 /\ (forall v, k v = put (success_event i v))
        /\ (forall e, h e = put (failure_event i e)).

(** The state after watcher [i] has cancelled its last task and forked a
    worker that suspends at [Call r k h]. *)
Definition forked (i : nat) (r : request_args) (k h : value -> saga unit)
    (s : state) : state :=
  {| store := store s; alive := alive s; nextId := S (nextId s);
     tasks := <[nextId s := Running k h]> (tasks (cancel (lastTask s !! i) s));
     lastTask := <[i := nextId s]> (lastTask s);
     requests := requests s ++ [(nextId s, r)];
     emitted := emitted s |}.

(** The state after task [tid] has put [o] and returned. *)
Definition settled (tid : nat) (o : outcome) (s : state) : state :=
  set_task tid Completed (dispatch_outcome tid o s).

(** What holds of every state the root saga can be in. *)
Record wf (s : state) : Prop := {
  wf_alive : alive s = true;
  wf_tasks : forall tid st, tasks s !! tid = Some st -> tid < nextId s;
  wf_last : forall i tid, lastTask s !! i = Some tid -> tid < nextId s;
  wf_owned : forall i tid k h,
      lastTask s !! i = Some tid -> tasks s !! tid = Some (Running k h) -> owned i k h;
  wf_held : forall tid k h,
      tasks s !! tid = Some (Running k h) -> exists i, lastTask s !! i = Some tid;
  wf_emitted : forall tid o, (tid, o) ∈ emitted s -> tasks s !! tid = Some Completed;
  wf_once : NoDup (fst <$> emitted s)
}.

(** A generator that never yields [select]. *)
Inductive select_free {A : Type} : saga A -> Prop :=
| sf_Return a : select_free (Return a)
| sf_Throw e : select_free (Throw e)
| sf_Call r k h :
    (forall v, select_free (k v)) -> (forall e, select_free (h e)) ->
    select_free (Call r k h)
| sf_Put o k : select_free k -> select_free (Put o k).

(** Two states of the middleware that differ at most in the store. *)
Definition same_but_store (s1 s2 : state) : Prop :=
  alive s1 = alive s2 /\ nextId s1 = nextId s2 /\ tasks s1 = tasks s2 /\
  lastTask s1 = lastTask s2 /\ requests s1 = requests s2 /\ emitted s1 = emitted s2.

(** No suspended task of the state will ever yield [select]. *)
Definition select_free_tasks (s : state) : Prop :=
  forall tid k h, tasks s !! tid = Some (Running k h) ->
                  (forall v, select_free (k v)) /\ (forall e, select_free (h e)).

Ltac same_fields :=
  match goal with
  | H : same_but_store _ _ |- same_but_store _ _ =>
      destruct H as (? & ? & ? & ? & ? & ?); repeat split; simpl; congruence
  end.

(** The outcomes the worker of each trigger kind reports. *)
Definition success_of (ty : action_type) : value -> outcome :=
  match ty with
  | LOAD_STREAMS => streamsLoaded
  | _ => updateStreamToReplicateDone
  end.

Definition failure_of (ty : action_type) : value -> outcome :=
  match ty with
  | LOAD_STREAMS => streamsLoadedError
  | _ => updateStreamToReplicateError
  end.

(** The events that can fall between a trigger and the settlement of its
    task [tid] when only the other kind is active: triggers of kind
    [other], and settlements of other tasks. *)
Definition bystander (other : action_type) (tid : nat) (ev : event) : bool :=
  match ev with
  | Dispatch b => bool_decide (type b = other)
  | Resolve t _ | Reject t _ => negb (Nat.eqb t tid)
  end.

(** The request goes to the endpoint base written in the workers. *)
Definition from_base (p : nat * request_args) : Prop :=
  String.prefix "http://localhost:5000" (requestURL (snd p)) = true.

(** ** Sample inputs *)

(** A store whose reducer ignores every action. *)
Definition sample_store : Store :=
  {| getState := VObj []; reducer := fun st _ => st |}.

Definition sample_load (target tap : string) : action :=
  {| type := LOAD_STREAMS; targetId := VStr target; tapId := VStr tap;
     streamId := VUndefined; params := VUndefined |}.

Definition sample_update (stream : string) : action :=
  {| type := UPDATE_STREAM_TO_REPLICATE; targetId := VStr "t1"; tapId := VStr "tp1";
     streamId := VStr stream;
     params := VObj [("replication_method", VStr "INCREMENTAL")] |}.

(** ** Vocabulary of the further properties *)

(** The payload an outcome carries. *)
Definition payload (o : outcome) : value :=
  match o with
  | streamsLoaded v | streamsLoadedError v
  | updateStreamToReplicateDone v | updateStreamToReplicateError v => v
  end.

(** The request at which a worker first suspends, if it does. *)
Definition first_request (m : saga unit) : list request_args :=
  match m with
  | Call r _ _ => [r]
  | _ => []
  end.

(** The requests the watchers of a root saga make for an action: one for
    each watcher whose pattern the action matches. *)
Definition demand (root : list watcher) (a : action) : list request_args :=
  flat_map (fun w => if bool_decide (type a = fst w)
                     then first_request (snd w a) else []) root.

(** The actions of an event list, in order. *)
Definition dispatches (evs : list event) : list action :=
  omap (fun ev => match ev with Dispatch a => Some a | _ => None end) evs.

(** The requests [tapPostgresData] makes for one event. *)
Definition owed (ev : event) : list request_args :=
  match ev with
  | Dispatch a => demand tapPostgresData a
  | _ => []
  end.

(** The action is a trigger of one of the two kinds. *)
Definition watched (a : action) : bool :=
  match watcher_of (type a) with
  | Some _ => true
  | None => false
  end.

(** The method of the request of the worker of watcher [i]. *)
Definition verb (i : nat) : string :=
  match i with
  | 0 => "GET"
  | _ => "PATCH"
  end.

(** Every task that waits, and every outcome that was put, goes back to a
    request of the same task, of the method of its worker. *)
Definition answers (s : state) : Prop :=
  (forall tid k h, tasks s !! tid = Some (Running k h) ->
     exists r i, (tid, r) ∈ requests s /\ owned i k h /\ http_method r = verb i) /\
  (forall tid o, (tid, o) ∈ emitted s ->
     exists r i v, (tid, r) ∈ requests s /\ i < 2 /\ http_method r = verb i /\
                   (o = success_event i v \/ o = failure_event i v)).

(** A generator out of which no exception comes. *)
Inductive guarded {A : Type} : saga A -> Prop :=
| g_Return a : guarded (Return a)
| g_Call r k h :
    (forall v, guarded (k v)) -> (forall e, guarded (h e)) -> guarded (Call r k h)
| g_Put o k : guarded k -> guarded (Put o k)
| g_Select sel k : (forall v, guarded (k v)) -> guarded (Select sel k).

(** The root saga lives, no task has died, and none that waits will. *)
Definition unharmed (s : state) : Prop :=
  alive s = true /\
  (forall tid e, tasks s !! tid <> Some (Aborted e)) /\
  (forall tid k h, tasks s !! tid = Some (Running k h) ->
     (forall v, guarded (k v)) /\ (forall e, guarded (h e))).

(** A worker like [getStreams] without its [try]/[catch]. *)
Definition unguarded_worker (action : action) : saga unit :=
  streams <- call (Request "http://localhost:5000/targets" None);;
  put (streamsLoaded streams).

(** A task that has returned has put an outcome. *)
Definition reported (s : state) : Prop :=
  forall tid, tasks s !! tid = Some Completed -> exists o, (tid, o) ∈ emitted s.

(** ** Examples *)

Example ToString_array :
  ToString (VArr [VStr "a"; VNull; VBool true; VArr [VStr "b"; VUndefined]]) = "a,,true,b,".
Proof. reflexivity. Qed.

Example JSON_stringify_params :
  JSON_stringify (VObj [("replication_method", VStr "INCREMENTAL");
                        ("replication_key", VUndefined);
                        ("selected", VBool true)])
  = VStr ("{" +:+ dquote +:+ "replication_method" +:+ dquote +:+ ":" +:+
          dquote +:+ "INCREMENTAL" +:+ dquote +:+ "," +:+
          dquote +:+ "selected" +:+ dquote +:+ ":true}").
Proof. reflexivity. Qed.

Example JSON_stringify_absent : JSON_stringify VUndefined = VUndefined.
Proof. reflexivity. Qed.

(** The runtime does hand the store to a generator that asks for it. *)
Example select_reads_store (st : Store) :
  emitted (exec 0 (v <- select (fun x => x);; put (streamsLoaded v)) (init st))
  = [(0, streamsLoaded (getState st))].
Proof. reflexivity. Qed.

(** ** The workers, unfolded *)

Lemma getStreams_unfold (a : action) :
  getStreams a =
  Call (Request ("http://localhost:5000/targets/" +:+ ToString (targetId a)
                   +:+ "/taps/" +:+ ToString (tapId a) +:+ "/streams") None)
       (fun v => put (streamsLoaded v))
       (fun e => put (streamsLoadedError e)).
Proof. reflexivity. Qed.

Lemma updateStreamToReplicate_unfold (a : action) :
  updateStreamToReplicate a =
  Call (Request ("http://localhost:5000/targets/" +:+ ToString (targetId a)
                   +:+ "/taps/" +:+ ToString (tapId a)
                   +:+ "/streams/" +:+ ToString (streamId a))
                (Some (Options "PATCH" [("Content-Type", "application/json")]
                               (JSON_stringify (params a)))))
       (fun v => put (updateStreamToReplicateDone v))
       (fun e => put (updateStreamToReplicateError e)).
Proof. reflexivity. Qed.

Lemma owned_getStreams : owned 0 (fun v => put (streamsLoaded v)) (fun e => put (streamsLoadedError e)).
Proof. repeat split; lia. Qed.

Lemma owned_updateStreamToReplicate :
  owned 1 (fun v => put (updateStreamToReplicateDone v))
          (fun e => put (updateStreamToReplicateError e)).
Proof. repeat split; lia. Qed.

(** ** One step, in closed form *)

Lemma run_cons (root : list watcher) (ev : event) (evs : list event) (s : state) :
  run root (ev :: evs) s = run root evs (step root s ev).
Proof. reflexivity. Qed.

Lemma cancel_tasks (t : option nat) (s : state) (tid : nat) :
  tasks (cancel t s) !! tid =
  if decide (t = Some tid) then stop <$> tasks s !! tid else tasks s !! tid.
Proof.
  destruct t as [t|]; simpl; [|by repeat case_decide].
  destruct (decide (Some t = Some tid)) as [[= ->]|Hne].
  - destruct (tasks s !! tid) as [[]|] eqn:E; simpl; rewrite ?lookup_insert_eq, ?E; done.
  - assert (t <> tid) by congruence.
    destruct (tasks s !! t) as [[]|]; simpl; rewrite ?lookup_insert_ne; done.
Qed.

Lemma cancel_rest (t : option nat) (s : state) :
  store (cancel t s) = store s /\ alive (cancel t s) = alive s /\
  nextId (cancel t s) = nextId s /\ lastTask (cancel t s) = lastTask s /\
  requests (cancel t s) = requests s /\ emitted (cancel t s) = emitted s.
Proof.
  destruct t as [t|]; simpl; [|done].
  destruct (tasks s !! t) as [[]|]; done.
Qed.

Lemma fork_Call (i : nat) (r : request_args) (k h : value -> saga unit) (s : state) :
  fork i (Call r k h) (cancel (lastTask s !! i) s) = forked i r k h s.
Proof.
  unfold fork, forked; simpl. unfold set_task, log_request; simpl.
  destruct (cancel_rest (lastTask s !! i) s) as (-> & -> & -> & -> & -> & ->).
  reflexivity.
Qed.

Lemma turn_take (i : nat) (w : watcher) (a : action) (s : state)
    (r : request_args) (k h : value -> saga unit) :
  alive s = true -> type a = fst w -> snd w a = Call r k h ->
  takeLatest_turn i w a s = forked i r k h s.
Proof.
  intros Hal Hty Hw. unfold takeLatest_turn.
  rewrite Hal, bool_decide_eq_true_2 by done. simpl.
  rewrite Hw. apply fork_Call.
Qed.

Lemma turn_skip (i : nat) (w : watcher) (a : action) (s : state) :
  type a <> fst w -> takeLatest_turn i w a s = s.
Proof.
  intros Hty. unfold takeLatest_turn.
  rewrite bool_decide_eq_false_2, andb_false_r by done. reflexivity.
Qed.

Lemma step_Dispatch_load (s : state) (a : action) :
  alive s = true -> type a = LOAD_STREAMS ->
  exists r k h, getStreams a = Call r k h /\ owned 0 k h /\
    step tapPostgresData s (Dispatch a) = forked 0 r k h (to_store a s).
Proof.
  intros Hal Hty. eexists _, _, _. split; [apply getStreams_unfold|].
  split; [apply owned_getStreams|].
  unfold step, tapPostgresData. cbn [offer].
  rewrite (turn_take 0 (takeLatest LOAD_STREAMS getStreams) a (to_store a s) _ _ _
             Hal Hty (getStreams_unfold a)).
  apply turn_skip. unfold takeLatest; simpl; congruence.
Qed.

Lemma step_Dispatch_update (s : state) (a : action) :
  alive s = true -> type a = UPDATE_STREAM_TO_REPLICATE ->
  exists r k h, updateStreamToReplicate a = Call r k h /\ owned 1 k h /\
    step tapPostgresData s (Dispatch a) = forked 1 r k h (to_store a s).
Proof.
  intros Hal Hty. eexists _, _, _. split; [apply updateStreamToReplicate_unfold|].
  split; [apply owned_updateStreamToReplicate|].
  unfold step, tapPostgresData. cbn [offer].
  rewrite (turn_skip 0) by (unfold takeLatest; simpl; congruence).
  apply (turn_take 1 (takeLatest UPDATE_STREAM_TO_REPLICATE updateStreamToReplicate) a
           (to_store a s) _ _ _ Hal Hty (updateStreamToReplicate_unfold a)).
Qed.

Lemma step_Dispatch_other (s : state) (a : action) :
  watcher_of (type a) = None ->
  step tapPostgresData s (Dispatch a) = to_store a s.
Proof.
  intros Hty. unfold step, tapPostgresData. cbn [offer].
  rewrite !turn_skip; [done| |]; unfold takeLatest; simpl; destruct (type a); done.
Qed.

Lemma step_Resolve (s : state) (tid i : nat) (k h : value -> saga unit) (p : value) :
  tasks s !! tid = Some (Running k h) -> owned i k h ->
  step tapPostgresData s (Resolve tid p) = settled tid (success_event i p) s.
Proof.
  intros Hrun (_ & Hk & _). unfold step. rewrite Hrun, Hk. reflexivity.
Qed.

Lemma step_Reject (s : state) (tid i : nat) (k h : value -> saga unit) (e : value) :
  tasks s !! tid = Some (Running k h) -> owned i k h ->
  step tapPostgresData s (Reject tid e) = settled tid (failure_event i e) s.
Proof.
  intros Hrun (_ & _ & Hh). unfold step. rewrite Hrun, Hh. reflexivity.
Qed.

Lemma step_settle_idle (s : state) (tid : nat) (v : value) :
  running tid s = false ->
  step tapPostgresData s (Resolve tid v) = s /\ step tapPostgresData s (Reject tid v) = s.
Proof.
  unfold running, step. destruct (tasks s !! tid) as [[]|]; done.
Qed.

(** ** The invariant *)

Lemma forked_tasks (i : nat) (r : request_args) (k h : value -> saga unit)
    (s : state) (tid : nat) :
  tasks (forked i r k h s) !! tid =
  if decide (nextId s = tid) then Some (Running k h)
  else if decide (lastTask s !! i = Some tid) then stop <$> tasks s !! tid
  else tasks s !! tid.
Proof. simpl. rewrite lookup_insert, cancel_tasks. reflexivity. Qed.

Lemma stop_not_Running (st : status) (k h : value -> saga unit) :
  stop st <> Running k h.
Proof. destruct st; discriminate. Qed.

(** A task that runs after a fork is the new one, or ran before and is not
    the one the watcher has cancelled. *)
Lemma forked_Running (i : nat) (r : request_args) (k h : value -> saga unit)
    (s : state) (tid : nat) (k' h' : value -> saga unit) :
  tasks (forked i r k h s) !! tid = Some (Running k' h') ->
  (tid = nextId s /\ k' = k /\ h' = h) \/
  (tid <> nextId s /\ lastTask s !! i <> Some tid /\
   tasks s !! tid = Some (Running k' h')).
Proof.
  rewrite forked_tasks. repeat case_decide.
  - intros [= -> ->]. left. done.
  - destruct (tasks s !! tid) as [st|]; simpl; [|done].
    intros [= Hst]. by apply stop_not_Running in Hst.
  - intros Hrun. right. done.
Qed.

Lemma wf_init (st : Store) : wf (init st).
Proof.
  constructor; simpl; try done.
  - intros tid o Hin. by apply elem_of_nil in Hin.
  - constructor.
Qed.

Lemma wf_to_store (a : action) (s : state) : wf s -> wf (to_store a s).
Proof. intros []. constructor; simpl; done. Qed.

Lemma wf_forked (i : nat) (r : request_args) (k h : value -> saga unit) (s : state) :
  wf s -> owned i k h -> wf (forked i r k h s).
Proof.
  intros Hwf Hown. constructor.
  - simpl. apply Hwf.
  - intros tid st. rewrite forked_tasks. simpl nextId. repeat case_decide.
    + intros _. lia.
    + destruct (tasks s !! tid) as [st'|] eqn:E; simpl; [|done].
      intros _. apply (wf_tasks s Hwf) in E. lia.
    + intros E. apply (wf_tasks s Hwf) in E. lia.
  - intros j tid. simpl. rewrite lookup_insert. case_decide.
    + intros [= <-]. lia.
    + intros E. apply (wf_last s Hwf) in E. lia.
  - intros j tid k' h'. simpl lastTask. rewrite lookup_insert. case_decide.
    + intros [= <-] Hrun. subst j.
      apply forked_Running in Hrun as [(_ & -> & ->)|(Hne & _)]; done.
    + intros Hlast Hrun.
      apply forked_Running in Hrun as [(-> & _)|(_ & _ & Hrun)].
      * apply (wf_last s Hwf) in Hlast. lia.
      * by apply (wf_owned s Hwf j tid).
  - intros tid k' h' Hrun.
    apply forked_Running in Hrun as [(-> & _)|(Hne & Hni & Hrun)].
    + exists i. simpl. apply lookup_insert_eq.
    + destruct (wf_held s Hwf tid k' h' Hrun) as [j Hj].
      exists j. simpl. rewrite lookup_insert_ne; [done|]. congruence.
  - intros tid o Hin. simpl in Hin.
    pose proof (wf_emitted s Hwf tid o Hin) as Hdone.
    pose proof (wf_tasks s Hwf tid _ Hdone).
    rewrite forked_tasks. repeat case_decide; [lia| |done].
    by rewrite Hdone.
  - simpl. apply Hwf.
Qed.

Lemma wf_settled (tid : nat) (o : outcome) (k h : value -> saga unit) (s : state) :
  wf s -> tasks s !! tid = Some (Running k h) -> wf (settled tid o s).
Proof.
  intros Hwf Hrun. constructor; simpl.
  - apply Hwf.
  - intros t st. rewrite lookup_insert. case_decide.
    + subst t. intros _. by apply (wf_tasks s Hwf) in Hrun.
    + apply Hwf.
  - apply Hwf.
  - intros j t k' h' Hlast. rewrite lookup_insert. case_decide; [done|].
    by apply Hwf.
  - intros t k' h'. rewrite lookup_insert. case_decide; [done|]. apply Hwf.
  - intros t o' Hin. rewrite lookup_insert. case_decide; [done|].
    apply elem_of_app in Hin as [Hin|Hin].
    + by apply (wf_emitted s Hwf t o').
    + apply list_elem_of_singleton in Hin. congruence.
  - rewrite fmap_app. simpl. apply NoDup_app. split; [apply Hwf|]. split.
    + intros t Hin Ht. apply list_elem_of_singleton in Ht. subst t.
      apply list_elem_of_fmap in Hin as [[t o'] [-> Hin]]. simpl in Hrun.
      apply (wf_emitted s Hwf) in Hin. simpl in Hin. congruence.
    + apply NoDup_singleton.
Qed.

(** The continuations of a task that runs are those of the worker of the
    watcher that holds it. *)
Lemma wf_Running (s : state) (tid : nat) (k h : value -> saga unit) :
  wf s -> tasks s !! tid = Some (Running k h) ->
  exists i, lastTask s !! i = Some tid /\ owned i k h.
Proof.
  intros Hwf Hrun. destruct (wf_held s Hwf tid k h Hrun) as [i Hi].
  exists i. split; [done|]. by apply (wf_owned s Hwf i tid).
Qed.

Lemma wf_step (s : state) (ev : event) : wf s -> wf (step tapPostgresData s ev).
Proof.
  intros Hwf. destruct ev as [a|tid p|tid e].
  - destruct (type a) eqn:Hta.
    + destruct (step_Dispatch_load s a (wf_alive s Hwf) Hta) as (r & k & h & _ & Hown & ->).
      apply wf_forked; [by apply wf_to_store|done].
    + destruct (step_Dispatch_update s a (wf_alive s Hwf) Hta) as (r & k & h & _ & Hown & ->).
      apply wf_forked; [by apply wf_to_store|done].
    + rewrite step_Dispatch_other by (by rewrite Hta). by apply wf_to_store.
  - destruct (running tid s) eqn:Hrun.
    + unfold running in Hrun. destruct (tasks s !! tid) as [[k h| | |]|] eqn:E; try done.
      destruct (wf_Running s tid k h Hwf E) as (i & _ & Hown).
      rewrite (step_Resolve s tid i k h p E Hown). by eapply wf_settled.
    + by rewrite (proj1 (step_settle_idle s tid p Hrun)).
  - destruct (running tid s) eqn:Hrun.
    + unfold running in Hrun. destruct (tasks s !! tid) as [[k h| | |]|] eqn:E; try done.
      destruct (wf_Running s tid k h Hwf E) as (i & _ & Hown).
      rewrite (step_Reject s tid i k h e E Hown). by eapply wf_settled.
    + by rewrite (proj2 (step_settle_idle s tid e Hrun)).
Qed.

Lemma wf_run (evs : list event) (s : state) : wf s -> wf (run tapPostgresData evs s).
Proof.
  revert s. induction evs as [|ev evs IH]; intros s Hwf; [done|].
  rewrite run_cons. apply IH. by apply wf_step.
Qed.

Lemma wf_reachable (st : Store) (evs : list event) :
  wf (run tapPostgresData evs (init st)).
Proof. apply wf_run, wf_init. Qed.

(** ** Tasks along a run *)

Lemma step_Dispatch_kind (s : state) (a : action) (i : nat) :
  wf s -> watcher_of (type a) = Some i ->
  exists r k h, owned i k h /\
    step tapPostgresData s (Dispatch a) = forked i r k h (to_store a s).
Proof.
  intros Hwf Hty. destruct (type a) eqn:Hta; simpl in Hty; simplify_eq.
  - destruct (step_Dispatch_load s a (wf_alive s Hwf) Hta) as (r & k & h & _ & Hown & Hst).
    by exists r, k, h.
  - destruct (step_Dispatch_update s a (wf_alive s Hwf) Hta) as (r & k & h & _ & Hown & Hst).
    by exists r, k, h.
Qed.

Lemma owned_unique (i j : nat) (k h : value -> saga unit) :
  owned i k h -> owned j k h -> i = j.
Proof.
  intros (Hi & Hk & _) (Hj & Hk' & _).
  specialize (Hk VNull). rewrite Hk' in Hk.
  destruct i as [|[|i]], j as [|[|j]]; simpl in *; try lia; discriminate.
Qed.

Lemma outcomes_of_settled (tid tid' : nat) (o : outcome) (s : state) :
  outcomes_of tid (settled tid' o s) =
  outcomes_of tid s ++ (if Nat.eqb tid' tid then [o] else []).
Proof.
  unfold outcomes_of. simpl. rewrite omap_app. simpl.
  by destruct (Nat.eqb tid' tid).
Qed.

(** Nothing was put by a task that does not exist yet. *)
Lemma outcomes_of_fresh (s : state) (tid : nat) :
  wf s -> nextId s <= tid -> outcomes_of tid s = [].
Proof.
  intros Hwf Hge. unfold outcomes_of.
  assert (Hall : forall p, p ∈ emitted s -> fst p <> tid).
  { intros [t o] Hin. simpl. apply (wf_emitted s Hwf) in Hin.
    apply (wf_tasks s Hwf) in Hin. lia. }
  induction (emitted s) as [|p l IH]; simpl; [done|].
  destruct (Nat.eqb_spec (fst p) tid) as [Heq|_].
  - exfalso. apply (Hall p); [left|done].
  - apply IH. intros q Hq. apply Hall. by right.
Qed.

(** A task that does not wait any more stays so and puts nothing. *)
Lemma idle_step (s : state) (tid : nat) (ev : event) :
  wf s -> tid < nextId s -> running tid s = false ->
  tid < nextId (step tapPostgresData s ev) /\
  running tid (step tapPostgresData s ev) = false /\
  outcomes_of tid (step tapPostgresData s ev) = outcomes_of tid s.
Proof.
  intros Hwf Hlt Hidle. destruct ev as [a|t p|t e].
  - destruct (watcher_of (type a)) as [i|] eqn:Hty.
    + destruct (step_Dispatch_kind s a i Hwf Hty) as (r & k & h & _ & ->).
      split; [simpl; lia|]. split; [|done].
      unfold running in *. rewrite forked_tasks. simpl.
      repeat case_decide; [lia| |done].
      destruct (tasks s !! tid) as [[]|]; done.
    + rewrite step_Dispatch_other by done. done.
  - destruct (running t s) eqn:Hrun.
    + unfold running in Hrun. destruct (tasks s !! t) as [[k h| | |]|] eqn:E; try done.
      destruct (wf_Running s t k h Hwf E) as (i & _ & Hown).
      rewrite (step_Resolve s t i k h p E Hown).
      assert (t <> tid) by (intros ->; unfold running in Hidle; by rewrite E in Hidle).
      split; [done|]. split.
      * unfold running in *. simpl. by rewrite lookup_insert_ne.
      * rewrite outcomes_of_settled. destruct (Nat.eqb_spec t tid); [done|].
        apply app_nil_r.
    + by rewrite (proj1 (step_settle_idle s t p Hrun)).
  - destruct (running t s) eqn:Hrun.
    + unfold running in Hrun. destruct (tasks s !! t) as [[k h| | |]|] eqn:E; try done.
      destruct (wf_Running s t k h Hwf E) as (i & _ & Hown).
      rewrite (step_Reject s t i k h e E Hown).
      assert (t <> tid) by (intros ->; unfold running in Hidle; by rewrite E in Hidle).
      split; [done|]. split.
      * unfold running in *. simpl. by rewrite lookup_insert_ne.
      * rewrite outcomes_of_settled. destruct (Nat.eqb_spec t tid); [done|].
        apply app_nil_r.
    + by rewrite (proj2 (step_settle_idle s t e Hrun)).
Qed.

Lemma idle_run (evs : list event) (s : state) (tid : nat) :
  wf s -> tid < nextId s -> running tid s = false ->
  outcomes_of tid (run tapPostgresData evs s) = outcomes_of tid s.
Proof.
  revert s. induction evs as [|ev evs IH]; intros s Hwf Hlt Hidle; [done|].
  rewrite run_cons. destruct (idle_step s tid ev Hwf Hlt Hidle) as (Hlt' & Hidle' & <-).
  apply IH; [by apply wf_step|done..].
Qed.

(** Running a task leaves the variables of the watchers alone. *)
Lemma exec_lastTask (tid : nat) (m : saga unit) (s : state) :
  lastTask (exec tid m s) = lastTask s.
Proof.
  revert s. induction m as [u|e|r k IHk h IHh|o k IH|sel k IH]; intros s; simpl; by rewrite ?IH.
Qed.

(** The last task of a watcher is cancelled by the next trigger of its kind. *)
Lemma superseded (s : state) (a : action) (i tid : nat) :
  wf s -> watcher_of (type a) = Some i -> tid < nextId s ->
  lastTask s !! i = Some tid \/ running tid s = false ->
  running tid (step tapPostgresData s (Dispatch a)) = false /\
  outcomes_of tid (step tapPostgresData s (Dispatch a)) = outcomes_of tid s.
Proof.
  intros Hwf Hty Hlt Hor.
  destruct (step_Dispatch_kind s a i Hwf Hty) as (r & k & h & _ & ->).
  split; [|done]. unfold running in *. rewrite forked_tasks. simpl.
  repeat case_decide; [lia| |].
  - destruct (tasks s !! tid) as [[]|]; done.
  - by destruct Hor.
Qed.

(** Until then the watcher holds it, unless it has ended. *)
Lemma held_or_idle_step (s : state) (i tid : nat) (ev : event) :
  wf s -> tid < nextId s ->
  lastTask s !! i = Some tid \/ running tid s = false ->
  lastTask (step tapPostgresData s ev) !! i = Some tid \/
  running tid (step tapPostgresData s ev) = false.
Proof.
  intros Hwf Hlt [Hlast|Hidle]; [|right; by apply idle_step].
  destruct ev as [a|t p|t e].
  - destruct (watcher_of (type a)) as [j|] eqn:Hty.
    + destruct (decide (j = i)) as [->|Hne].
      * right. apply (superseded s a i tid); auto.
      * destruct (step_Dispatch_kind s a j Hwf Hty) as (r & k & h & _ & ->).
        left. simpl. by rewrite lookup_insert_ne.
    + rewrite step_Dispatch_other by done. by left.
  - left. unfold step.
    destruct (tasks s !! t) as [[k h| | |]|]; rewrite ?exec_lastTask; done.
  - left. unfold step.
    destruct (tasks s !! t) as [[k h| | |]|]; rewrite ?exec_lastTask; done.
Qed.

Lemma watcher_of_inj (ty ty' : action_type) (i : nat) :
  watcher_of ty = Some i -> watcher_of ty' = Some i -> ty = ty'.
Proof. destruct ty, ty'; simpl; congruence. Qed.

Lemma events_of_kind (ty : action_type) (i : nat) :
  watcher_of ty = Some i ->
  success_event i = success_of ty /\ failure_event i = failure_of ty.
Proof. destruct ty; simpl; intros [= <-]; done. Qed.

Lemma is_trigger (ty : action_type) :
  ty = LOAD_STREAMS \/ ty = UPDATE_STREAM_TO_REPLICATE ->
  exists i, watcher_of ty = Some i.
Proof. intros [->| ->]; simpl; eauto. Qed.

(** A trigger of a watched kind leaves its task suspended at its call, held
    by the watcher, with nothing put yet. *)
Lemma dispatch_in_flight (s : state) (a : action) (i : nat) :
  wf s -> watcher_of (type a) = Some i ->
  exists k h,
    lastTask (step tapPostgresData s (Dispatch a)) !! i = Some (nextId s) /\
    tasks (step tapPostgresData s (Dispatch a)) !! nextId s = Some (Running k h) /\
    outcomes_of (nextId s) (step tapPostgresData s (Dispatch a)) = [].
Proof.
  intros Hwf Hty.
  destruct (step_Dispatch_kind s a i Hwf Hty) as (r & k & h & _ & ->).
  exists k, h. split; [simpl; apply lookup_insert_eq|]. split.
  - rewrite forked_tasks. simpl. by case_decide.
  - change (outcomes_of (nextId s) s = []). by apply outcomes_of_fresh.
Qed.

(** Events that are quiet for a task in flight leave it in flight. *)
Lemma quiet_step (s : state) (ty : action_type) (i tid : nat)
    (k h : value -> saga unit) (ev : event) :
  wf s -> watcher_of ty = Some i ->
  lastTask s !! i = Some tid -> tasks s !! tid = Some (Running k h) ->
  quiet ty tid ev = true ->
  lastTask (step tapPostgresData s ev) !! i = Some tid /\
  tasks (step tapPostgresData s ev) !! tid = Some (Running k h) /\
  outcomes_of tid (step tapPostgresData s ev) = outcomes_of tid s.
Proof.
  intros Hwf Hty Hlast Hrun Hq.
  pose proof (wf_tasks s Hwf tid _ Hrun) as Hlt.
  destruct ev as [a|t p|t e]; simpl in Hq.
  - apply negb_true_iff, bool_decide_eq_false in Hq.
    destruct (watcher_of (type a)) as [j|] eqn:Hta.
    + assert (j <> i) as Hne.
      { intros ->. apply Hq. by apply (watcher_of_inj _ _ i). }
      destruct (step_Dispatch_kind s a j Hwf Hta) as (r & k' & h' & _ & ->).
      split; [simpl; by rewrite lookup_insert_ne|]. split; [|done].
      rewrite forked_tasks. simpl. repeat case_decide; [lia| |done].
      exfalso. apply Hne.
      apply (owned_unique j i k h); by eapply (wf_owned s Hwf).
    + rewrite step_Dispatch_other by done. done.
  - apply negb_true_iff, Nat.eqb_neq in Hq.
    destruct (running t s) eqn:Ht.
    + unfold running in Ht. destruct (tasks s !! t) as [[k' h'| | |]|] eqn:E; try done.
      destruct (wf_Running s t k' h' Hwf E) as (j & _ & Hown).
      rewrite (step_Resolve s t j k' h' p E Hown).
      split; [done|]. split; [simpl; by rewrite lookup_insert_ne|].
      rewrite outcomes_of_settled. destruct (Nat.eqb_spec t tid); [done|].
      apply app_nil_r.
    + by rewrite (proj1 (step_settle_idle s t p Ht)).
  - apply negb_true_iff, Nat.eqb_neq in Hq.
    destruct (running t s) eqn:Ht.
    + unfold running in Ht. destruct (tasks s !! t) as [[k' h'| | |]|] eqn:E; try done.
      destruct (wf_Running s t k' h' Hwf E) as (j & _ & Hown).
      rewrite (step_Reject s t j k' h' e E Hown).
      split; [done|]. split; [simpl; by rewrite lookup_insert_ne|].
      rewrite outcomes_of_settled. destruct (Nat.eqb_spec t tid); [done|].
      apply app_nil_r.
    + by rewrite (proj2 (step_settle_idle s t e Ht)).
Qed.

Lemma quiet_run (evs : list event) (s : state) (ty : action_type) (i tid : nat)
    (k h : value -> saga unit) :
  wf s -> watcher_of ty = Some i ->
  lastTask s !! i = Some tid -> tasks s !! tid = Some (Running k h) ->
  forallb (quiet ty tid) evs = true ->
  lastTask (run tapPostgresData evs s) !! i = Some tid /\
  tasks (run tapPostgresData evs s) !! tid = Some (Running k h) /\
  outcomes_of tid (run tapPostgresData evs s) = outcomes_of tid s.
Proof.
  revert s. induction evs as [|ev evs IH]; intros s Hwf Hty Hlast Hrun Hq; [done|].
  simpl in Hq. apply andb_true_iff in Hq as [Hq Hqs]. rewrite run_cons.
  destruct (quiet_step s ty i tid k h ev Hwf Hty Hlast Hrun Hq) as (Hlast' & Hrun' & <-).
  apply IH; [by apply wf_step|done..].
Qed.

(** The settlement of a task in flight, in closed form. *)
Lemma settle_in_flight (s : state) (ty : action_type) (i tid : nat)
    (k h : value -> saga unit) (v : value) :
  wf s -> watcher_of ty = Some i ->
  lastTask s !! i = Some tid -> tasks s !! tid = Some (Running k h) ->
  step tapPostgresData s (Resolve tid v) = settled tid (success_of ty v) s /\
  step tapPostgresData s (Reject tid v) = settled tid (failure_of ty v) s.
Proof.
  intros Hwf Hty Hlast Hrun.
  pose proof (wf_owned s Hwf i tid k h Hlast Hrun) as Hown.
  destruct (events_of_kind ty i Hty) as [<- <-].
  split; [by eapply step_Resolve|by eapply step_Reject].
Qed.

(** From the trigger to the settlement of its task, over quiet events. *)
Lemma trigger_to_settlement (s0 : state) (a : action) (evs : list event) (v : value) :
  wf s0 -> type a = LOAD_STREAMS \/ type a = UPDATE_STREAM_TO_REPLICATE ->
  forallb (quiet (type a) (nextId s0)) evs = true ->
  let s := run tapPostgresData (Dispatch a :: evs) s0 in
  running (nextId s0) s = true /\ outcomes_of (nextId s0) s = [] /\
  step tapPostgresData s (Resolve (nextId s0) v)
    = settled (nextId s0) (success_of (type a) v) s /\
  step tapPostgresData s (Reject (nextId s0) v)
    = settled (nextId s0) (failure_of (type a) v) s.
Proof.
  intros Hwf Hkind Hq s. subst s. rewrite run_cons.
  destruct (is_trigger _ Hkind) as [i Hty].
  destruct (dispatch_in_flight s0 a i Hwf Hty) as (k & h & Hlast & Hrun & Hnone).
  pose proof (wf_step s0 (Dispatch a) Hwf) as Hwf1.
  destruct (quiet_run evs _ (type a) i (nextId s0) k h Hwf1 Hty Hlast Hrun Hq)
    as (Hlast' & Hrun' & Hout).
  split; [unfold running; by rewrite Hrun'|].
  split; [by rewrite Hout|].
  apply (settle_in_flight _ (type a) i (nextId s0) k h); [by apply wf_run|done..].
Qed.

Lemma settled_outcomes (s : state) (tid : nat) (o : outcome) :
  outcomes_of tid s = [] -> outcomes_of tid (settled tid o s) = [o].
Proof. intros H. by rewrite outcomes_of_settled, H, Nat.eqb_refl. Qed.


Lemma nextId_step (s : state) (ev : event) :
  wf s -> nextId s <= nextId (step tapPostgresData s ev).
Proof.
  intros Hwf. destruct ev as [a|t p|t e].
  - destruct (watcher_of (type a)) as [i|] eqn:Hty.
    + destruct (step_Dispatch_kind s a i Hwf Hty) as (r & k & h & _ & ->). simpl. lia.
    + by rewrite step_Dispatch_other.
  - destruct (running t s) eqn:Ht.
    + unfold running in Ht. destruct (tasks s !! t) as [[k h| | |]|] eqn:E; try done.
      destruct (wf_Running s t k h Hwf E) as (j & _ & Hown).
      by rewrite (step_Resolve s t j k h p E Hown).
    + by rewrite (proj1 (step_settle_idle s t p Ht)).
  - destruct (running t s) eqn:Ht.
    + unfold running in Ht. destruct (tasks s !! t) as [[k h| | |]|] eqn:E; try done.
      destruct (wf_Running s t k h Hwf E) as (j & _ & Hown).
      by rewrite (step_Reject s t j k h e E Hown).
    + by rewrite (proj2 (step_settle_idle s t e Ht)).
Qed.

Lemma held_or_idle_run (evs : list event) (s : state) (i tid : nat) :
  wf s -> tid < nextId s ->
  lastTask s !! i = Some tid \/ running tid s = false ->
  tid < nextId (run tapPostgresData evs s) /\
  (lastTask (run tapPostgresData evs s) !! i = Some tid \/
   running tid (run tapPostgresData evs s) = false).
Proof.
  revert s. induction evs as [|ev evs IH]; intros s Hwf Hlt Hor; [done|].
  rewrite run_cons. apply IH; [by apply wf_step| |by apply held_or_idle_step].
  pose proof (nextId_step s ev Hwf). lia.
Qed.

(** A trigger supersedes the task of an earlier trigger of its kind that
    has put nothing yet: that task never puts anything. *)
Lemma supersession (s0 : state) (T1 T2 : action) (es1 es2 : list event) :
  wf s0 -> type T1 = LOAD_STREAMS \/ type T1 = UPDATE_STREAM_TO_REPLICATE ->
  type T2 = type T1 ->
  outcomes_of (nextId s0) (run tapPostgresData (Dispatch T1 :: es1) s0) = [] ->
  outcomes_of (nextId s0)
    (run tapPostgresData (Dispatch T2 :: es2)
       (run tapPostgresData (Dispatch T1 :: es1) s0)) = [].
Proof.
  intros Hwf Hkind Hsame Hnone.
  destruct (is_trigger _ Hkind) as [i Hty].
  set (s1 := run tapPostgresData (Dispatch T1 :: es1) s0) in *.
  assert (wf s1) as Hwf1 by (by apply wf_run).
  assert (nextId s0 < nextId s1 /\
          (lastTask s1 !! i = Some (nextId s0) \/ running (nextId s0) s1 = false))
    as (Hlt1 & Hor1).
  { subst s1. rewrite run_cons.
    destruct (dispatch_in_flight s0 T1 i Hwf Hty) as (k & h & Hlast & Hrun & _).
    apply held_or_idle_run; [by apply wf_step| |by left].
    apply (wf_tasks _ (wf_step s0 (Dispatch T1) Hwf) _ _ Hrun). }
  rewrite run_cons. rewrite <- Hsame in Hty.
  destruct (superseded s1 T2 i (nextId s0) Hwf1 Hty Hlt1 Hor1) as (Hidle & Hout).
  rewrite idle_run; [congruence|by apply wf_step| |done].
  pose proof (nextId_step s1 (Dispatch T2) Hwf1). lia.
Qed.

Lemma nextId_run (evs : list event) (s : state) :
  wf s -> nextId s <= nextId (run tapPostgresData evs s).
Proof.
  revert s. induction evs as [|ev evs IH]; intros s Hwf; [done|].
  rewrite run_cons. pose proof (nextId_step s ev Hwf).
  pose proof (IH _ (wf_step s ev Hwf)). lia.
Qed.

(** The task of a trigger takes the next number. *)
Lemma nextId_run_Dispatch (s : state) (a : action) (evs : list event) :
  wf s -> type a = LOAD_STREAMS \/ type a = UPDATE_STREAM_TO_REPLICATE ->
  nextId s < nextId (run tapPostgresData evs (step tapPostgresData s (Dispatch a))).
Proof.
  intros Hwf Hkind. destruct (is_trigger _ Hkind) as [i Hty].
  pose proof (nextId_run evs _ (wf_step s (Dispatch a) Hwf)) as Hle.
  destruct (step_Dispatch_kind s a i Hwf Hty) as (r & k & h & _ & Hst).
  assert (nextId (step tapPostgresData s (Dispatch a)) = S (nextId s)) as Heq
    by (by rewrite Hst).
  lia.
Qed.

Lemma outcomes_absent (l : list (nat * outcome)) (tid : nat) :
  tid ∉ fst <$> l ->
  omap (fun p => if Nat.eqb (fst p) tid then Some (snd p) else None) l = [].
Proof.
  induction l as [|[t o] l IH]; [done|]. rewrite fmap_cons. simpl.
  intros Hni. apply not_elem_of_cons in Hni as [Hne Hni].
  destruct (Nat.eqb_spec t tid) as [->|_]; [done|]. by apply IH.
Qed.

(** A task puts at most one outcome. *)
Lemma outcomes_of_once (s : state) (tid : nat) :
  wf s -> length (outcomes_of tid s) <= 1.
Proof.
  intros Hwf. pose proof (wf_once s Hwf) as Hnd. unfold outcomes_of.
  induction (emitted s) as [|[t o] l IH]; [simpl; lia|].
  rewrite fmap_cons in Hnd. apply NoDup_cons in Hnd as [Hni Hnd].
  cbn [omap list_omap fst snd]. destruct (Nat.eqb_spec t tid) as [->|_].
  - change (length (o :: omap (fun p => if Nat.eqb (fst p) tid then Some (snd p) else None) l) <= 1).
    rewrite (outcomes_absent l tid Hni). simpl. lia.
  - by apply IH.
Qed.

Lemma outcomes_of_elem (s : state) (tid : nat) (o : outcome) :
  o ∈ outcomes_of tid s -> (tid, o) ∈ emitted s.
Proof.
  unfold outcomes_of. intros Hin.
  apply list_elem_of_omap in Hin as [[t o'] [Hin Heq]]. simpl in Heq.
  destruct (Nat.eqb_spec t tid) as [->|_]; congruence.
Qed.

(** ** The claims *)






Lemma bystander_quiet (ty other : action_type) (tid : nat) (evs : list event) :
  other <> ty ->
  forallb (bystander other tid) evs = true -> forallb (quiet ty tid) evs = true.
Proof.
  intros Hne. induction evs as [|ev evs IH]; [done|]. simpl.
  intros [Hb Hbs]%andb_true_iff. rewrite IH by done. rewrite andb_true_r.
  destruct ev as [b|t p|t e]; simpl in *; [|done..].
  apply bool_decide_eq_true in Hb. apply negb_true_iff, bool_decide_eq_false. congruence.
Qed.







Lemma issued_forked (i : nat) (r : request_args) (k h : value -> saga unit)
    (a : action) (s : state) :
  issued s (forked i r k h (to_store a s)) = [r].
Proof. unfold issued. simpl. by rewrite drop_app_length. Qed.

Lemma step_load_closed (s : state) (a : action) :
  wf s -> type a = LOAD_STREAMS ->
  step tapPostgresData s (Dispatch a) =
  forked 0
    (Request ("http://localhost:5000/targets/" +:+ ToString (targetId a)
                +:+ "/taps/" +:+ ToString (tapId a) +:+ "/streams") None)
    (fun v => put (streamsLoaded v)) (fun e => put (streamsLoadedError e))
    (to_store a s).
Proof.
  intros Hwf Hty.
  destruct (step_Dispatch_load s a (wf_alive s Hwf) Hty) as (r & k & h & Hg & _ & ->).
  rewrite getStreams_unfold in Hg. by injection Hg as <- <- <-.
Qed.

Lemma step_update_closed (s : state) (a : action) :
  wf s -> type a = UPDATE_STREAM_TO_REPLICATE ->
  step tapPostgresData s (Dispatch a) =
  forked 1
    (Request ("http://localhost:5000/targets/" +:+ ToString (targetId a)
                +:+ "/taps/" +:+ ToString (tapId a)
                +:+ "/streams/" +:+ ToString (streamId a))
             (Some (Options "PATCH" [("Content-Type", "application/json")]
                            (JSON_stringify (params a)))))
    (fun v => put (updateStreamToReplicateDone v))
    (fun e => put (updateStreamToReplicateError e))
    (to_store a s).
Proof.
  intros Hwf Hty.
  destruct (step_Dispatch_update s a (wf_alive s Hwf) Hty) as (r & k & h & Hg & _ & ->).
  rewrite updateStreamToReplicate_unfold in Hg. by injection Hg as <- <- <-.
Qed.


Lemma issued_same (s1 s2 : state) (a : action) :
  wf s1 -> wf s2 ->
  issued s1 (step tapPostgresData s1 (Dispatch a)) =
  issued s2 (step tapPostgresData s2 (Dispatch a)).
Proof.
  intros Hwf1 Hwf2. destruct (type a) eqn:Hty.
  - rewrite !step_load_closed by done. by rewrite !issued_forked.
  - rewrite !step_update_closed by done. by rewrite !issued_forked.
  - rewrite !step_Dispatch_other by (by rewrite Hty).
    unfold issued. simpl. by rewrite !drop_all.
Qed.




Lemma requests_from_base (s : state) (ev : event) :
  wf s -> Forall from_base (requests s) ->
  Forall from_base (requests (step tapPostgresData s ev)).
Proof.
  intros Hwf Hall. destruct ev as [a|t p|t e].
  - destruct (type a) eqn:Hty.
    + rewrite step_load_closed by done. simpl.
      apply Forall_app. split; [done|]. by repeat constructor.
    + rewrite step_update_closed by done. simpl.
      apply Forall_app. split; [done|]. by repeat constructor.
    + by rewrite step_Dispatch_other by (by rewrite Hty).
  - destruct (running t s) eqn:Ht.
    + unfold running in Ht. destruct (tasks s !! t) as [[k h| | |]|] eqn:E; try done.
      destruct (wf_Running s t k h Hwf E) as (j & _ & Hown).
      by rewrite (step_Resolve s t j k h p E Hown).
    + by rewrite (proj1 (step_settle_idle s t p Ht)).
  - destruct (running t s) eqn:Ht.
    + unfold running in Ht. destruct (tasks s !! t) as [[k h| | |]|] eqn:E; try done.
      destruct (wf_Running s t k h Hwf E) as (j & _ & Hown).
      by rewrite (step_Reject s t j k h e E Hown).
    + by rewrite (proj2 (step_settle_idle s t e Ht)).
Qed.

Lemma requests_from_base_run (evs : list event) (s : state) :
  wf s -> Forall from_base (requests s) ->
  Forall from_base (requests (run tapPostgresData evs s)).
Proof.
  revert s. induction evs as [|ev evs IH]; intros s Hwf Hall; [done|].
  rewrite run_cons. apply IH; [by apply wf_step|by apply requests_from_base].
Qed.


(** ** The store is never read *)

Lemma getStreams_select_free (a : action) : select_free (getStreams a).
Proof. rewrite getStreams_unfold. repeat constructor. Qed.

Lemma updateStreamToReplicate_select_free (a : action) :
  select_free (updateStreamToReplicate a).
Proof. rewrite updateStreamToReplicate_unfold. repeat constructor. Qed.

Lemma exec_same (tid : nat) (m : saga unit) (s1 s2 : state) :
  select_free m -> same_but_store s1 s2 ->
  same_but_store (exec tid m s1) (exec tid m s2).
Proof.
  intros Hsf. revert s1 s2.
  induction Hsf as [u|e|r k h _ _ _ _|o k _ IH]; intros s1 s2 Hsame; simpl.
  - same_fields.
  - same_fields.
  - same_fields.
  - apply IH. same_fields.
Qed.

Lemma exec_select_free_tasks (tid : nat) (m : saga unit) (s : state) :
  select_free m -> select_free_tasks s -> select_free_tasks (exec tid m s).
Proof.
  intros Hsf. revert s.
  induction Hsf as [u|e|r k h Hk _ Hh _|o k _ IH]; intros s Hs; simpl.
  - intros t k' h'. simpl. rewrite lookup_insert. case_decide; [done|]. apply Hs.
  - intros t k' h'. simpl. rewrite lookup_fmap.
    destruct (_ !! t) as [x|]; simpl; [|done].
    intros [= Hx]. by apply stop_not_Running in Hx.
  - intros t k' h'. simpl. rewrite lookup_insert. case_decide; [|apply Hs].
    intros [= <- <-]. done.
  - apply IH. intros t k' h'. simpl. apply Hs.
Qed.

Lemma cancel_same (t : option nat) (s1 s2 : state) :
  same_but_store s1 s2 -> same_but_store (cancel t s1) (cancel t s2).
Proof.
  intros Hsame. pose proof Hsame as (_ & _ & Htasks & _).
  destruct t as [t|]; simpl; [|done]. rewrite <- Htasks.
  destruct (tasks s1 !! t) as [[]|]; try done. same_fields.
Qed.

Lemma cancel_select_free_tasks (t : option nat) (s : state) :
  select_free_tasks s -> select_free_tasks (cancel t s).
Proof.
  intros Hs tid k h. rewrite cancel_tasks. case_decide; [|apply Hs].
  destruct (tasks s !! tid) as [x|]; simpl; [|done].
  intros [= Hx]. by apply stop_not_Running in Hx.
Qed.

Lemma fork_same (i : nat) (m : saga unit) (s1 s2 : state) :
  select_free m -> same_but_store s1 s2 ->
  same_but_store (fork i m s1) (fork i m s2).
Proof.
  intros Hsf Hsame. unfold fork.
  pose proof Hsame as (_ & <- & _). apply exec_same; [done|]. same_fields.
Qed.

Lemma fork_select_free_tasks (i : nat) (m : saga unit) (s : state) :
  select_free m -> select_free_tasks s -> select_free_tasks (fork i m s).
Proof. intros Hsf Hs. unfold fork. apply exec_select_free_tasks; done. Qed.

Section Noninterference.

(** Any root saga of [takeLatest] watchers whose workers never yield
    [select]. *)
Variable root : list watcher.
Hypothesis root_select_free : Forall (fun w => forall b, select_free (snd w b)) root.

Lemma turn_same (i : nat) (w : watcher) (a : action) (s1 s2 : state) :
  (forall b, select_free (snd w b)) -> same_but_store s1 s2 -> select_free_tasks s1 ->
  same_but_store (takeLatest_turn i w a s1) (takeLatest_turn i w a s2) /\
  select_free_tasks (takeLatest_turn i w a s1).
Proof.
  intros Hw Hsame Hs. unfold takeLatest_turn.
  pose proof Hsame as (<- & _ & _ & <- & _).
  destruct (alive s1 && bool_decide (type a = fst w)); [|done]. split.
  - apply fork_same; [done|]. by apply cancel_same.
  - apply fork_select_free_tasks; [done|]. by apply cancel_select_free_tasks.
Qed.

Lemma offer_same (a : action) (ws : list watcher) (i : nat) (s1 s2 : state) :
  Forall (fun w => forall b, select_free (snd w b)) ws ->
  same_but_store s1 s2 -> select_free_tasks s1 ->
  same_but_store (offer a i ws s1) (offer a i ws s2) /\
  select_free_tasks (offer a i ws s1).
Proof.
  intros Hws. revert i s1 s2.
  induction Hws as [|w ws Hw _ IH]; intros i s1 s2 Hsame Hs; simpl; [done|].
  destruct (turn_same i w a s1 s2 Hw Hsame Hs) as [Hsame' Hs']. by apply IH.
Qed.

Lemma step_same (ev : event) (s1 s2 : state) :
  same_but_store s1 s2 -> select_free_tasks s1 ->
  same_but_store (step root s1 ev) (step root s2 ev) /\
  select_free_tasks (step root s1 ev).
Proof.
  intros Hsame Hs. destruct ev as [a|t p|t e]; simpl.
  - apply offer_same; [exact root_select_free| |done]. same_fields.
  - pose proof Hsame as (_ & _ & <- & _).
    destruct (tasks s1 !! t) as [[k h| | |]|] eqn:E; try done.
    destruct (Hs t k h E) as [Hk _]. split.
    + by apply exec_same.
    + by apply exec_select_free_tasks.
  - pose proof Hsame as (_ & _ & <- & _).
    destruct (tasks s1 !! t) as [[k h| | |]|] eqn:E; try done.
    destruct (Hs t k h E) as [_ Hh]. split.
    + by apply exec_same.
    + by apply exec_select_free_tasks.
Qed.

Lemma run_same (evs : list event) (s1 s2 : state) :
  same_but_store s1 s2 -> select_free_tasks s1 ->
  same_but_store (run root evs s1) (run root evs s2).
Proof.
  revert s1 s2.
  induction evs as [|ev evs IH]; intros s1 s2 Hsame Hs; [done|].
  rewrite !run_cons. destruct (step_same ev s1 s2 Hsame Hs). by apply IH.
Qed.

End Noninterference.

Lemma tapPostgresData_select_free :
  Forall (fun w => forall b, select_free (snd w b)) tapPostgresData.
Proof.
  constructor; [intros b; apply getStreams_select_free|].
  constructor; [intros b; apply updateStreamToReplicate_select_free|].
  constructor.
Qed.

(** C10. The store does not interfere. Neither worker yields [select]; so
    two runs over the same events (the same triggers with the same fields,
    the same responses of the HTTP collaborator) put the same outcomes and
    issue the same requests, whatever the two stores hold and however
    their reducers change them. *)
Theorem store_noninterference (st1 st2 : Store) (es : list event) :
  (forall a, select_free (getStreams a)) /\
  (forall a, select_free (updateStreamToReplicate a)) /\
  emitted (run tapPostgresData es (init st1)) = emitted (run tapPostgresData es (init st2)) /\
  requests (run tapPostgresData es (init st1)) = requests (run tapPostgresData es (init st2)).
Proof.
  split; [apply getStreams_select_free|].
  split; [apply updateStreamToReplicate_select_free|].
  assert (same_but_store (run tapPostgresData es (init st1))
                         (run tapPostgresData es (init st2))) as (_ & _ & _ & _ & Hr & He).
  { apply run_same.
    - apply tapPostgresData_select_free.
    - repeat split.
    - intros t k h. simpl. by rewrite lookup_empty. }
  done.
Qed.

(** ** The request log *)

Lemma demand_load (a : action) :
  type a = LOAD_STREAMS ->
  demand tapPostgresData a =
  [Request ("http://localhost:5000/targets/" +:+ ToString (targetId a)
              +:+ "/taps/" +:+ ToString (tapId a) +:+ "/streams") None].
Proof. intros Hty. unfold demand, tapPostgresData. simpl. rewrite Hty. reflexivity. Qed.

Lemma demand_update (a : action) :
  type a = UPDATE_STREAM_TO_REPLICATE ->
  demand tapPostgresData a =
  [Request ("http://localhost:5000/targets/" +:+ ToString (targetId a)
              +:+ "/taps/" +:+ ToString (tapId a)
              +:+ "/streams/" +:+ ToString (streamId a))
           (Some (Options "PATCH" [("Content-Type", "application/json")]
                          (JSON_stringify (params a))))].
Proof. intros Hty. unfold demand, tapPostgresData. simpl. rewrite Hty. reflexivity. Qed.

Lemma demand_other (a : action) :
  watcher_of (type a) = None -> demand tapPostgresData a = [].
Proof.
  intros Hty. unfold demand, tapPostgresData. simpl.
  destruct (type a); try discriminate. reflexivity.
Qed.

Lemma demand_watched (a : action) :
  length (demand tapPostgresData a) = if watched a then 1 else 0.
Proof.
  unfold watched. destruct (type a) eqn:Hty.
  - by rewrite demand_load.
  - by rewrite demand_update.
  - rewrite demand_other; [done|by rewrite Hty].
Qed.

(** What one step adds to the log, and how the task numbers advance. *)
Lemma requests_step (s : state) (ev : event) :
  wf s ->
  (owed ev = [] /\ requests (step tapPostgresData s ev) = requests s /\
   nextId (step tapPostgresData s ev) = nextId s) \/
  (exists r, owed ev = [r] /\
     requests (step tapPostgresData s ev) = requests s ++ [(nextId s, r)] /\
     nextId (step tapPostgresData s ev) = S (nextId s)).
Proof.
  intros Hwf. destruct ev as [a|t p|t e]; unfold owed.
  - destruct (type a) eqn:Hty.
    + right. rewrite step_load_closed, demand_load by done. by eexists.
    + right. rewrite step_update_closed, demand_update by done. by eexists.
    + left. rewrite step_Dispatch_other, demand_other by (by rewrite Hty). done.
  - left. destruct (running t s) eqn:Ht.
    + unfold running in Ht. destruct (tasks s !! t) as [[k h| | |]|] eqn:E; try done.
      destruct (wf_Running s t k h Hwf E) as (j & _ & Hown).
      by rewrite (step_Resolve s t j k h p E Hown).
    + by rewrite (proj1 (step_settle_idle s t p Ht)).
  - left. destruct (running t s) eqn:Ht.
    + unfold running in Ht. destruct (tasks s !! t) as [[k h| | |]|] eqn:E; try done.
      destruct (wf_Running s t k h Hwf E) as (j & _ & Hown).
      by rewrite (step_Reject s t j k h e E Hown).
    + by rewrite (proj2 (step_settle_idle s t e Ht)).
Qed.

Lemma dispatches_cons (ev : event) (evs : list event) :
  flat_map (demand tapPostgresData) (dispatches (ev :: evs)) =
  owed ev ++ flat_map (demand tapPostgresData) (dispatches evs).
Proof. destruct ev; simpl; [|done..]. reflexivity. Qed.

Lemma requests_run (evs : list event) (s : state) :
  wf s ->
  snd <$> requests (run tapPostgresData evs s) =
    (snd <$> requests s) ++ flat_map (demand tapPostgresData) (dispatches evs) /\
  fst <$> requests (run tapPostgresData evs s) =
    (fst <$> requests s) ++
    seq (nextId s) (length (flat_map (demand tapPostgresData) (dispatches evs))).
Proof.
  revert s. induction evs as [|ev evs IH]; intros s Hwf.
  - simpl. by rewrite !app_nil_r.
  - rewrite run_cons, dispatches_cons.
    destruct (IH _ (wf_step s ev Hwf)) as [IHs IHf]. rewrite IHs, IHf.
    destruct (requests_step s ev Hwf) as [(-> & -> & ->)|(r & -> & -> & ->)].
    + done.
    + rewrite !fmap_app. simpl. by rewrite <- !app_assoc.
Qed.

Lemma length_demands (l : list action) :
  length (flat_map (demand tapPostgresData) l) = length (List.filter watched l).
Proof.
  induction l as [|a l IH]; [done|]. cbn [flat_map List.filter].
  rewrite length_app, demand_watched, IH. by destruct (watched a).
Qed.


Lemma requests_NoDup (s : state) (tid : nat) (r r' : request_args) :
  fst <$> requests s = seq 0 (length (requests s)) ->
  (tid, r) ∈ requests s -> (tid, r') ∈ requests s -> r = r'.
Proof.
  intros Hseq Hr Hr'.
  assert (NoDup (fst <$> requests s)) as Hnd by (rewrite Hseq; apply NoDup_seq).
  apply list_elem_of_lookup in Hr as [i Hi], Hr' as [j Hj].
  assert (i = j) as ->.
  { apply (NoDup_lookup _ i j tid Hnd); rewrite list_lookup_fmap.
    - by rewrite Hi.
    - by rewrite Hj. }
  congruence.
Qed.

(** ** Outcomes and their requests *)

Lemma emitted_step (s : state) (ev : event) (tid : nat) (o : outcome) :
  wf s -> (tid, o) ∈ emitted (step tapPostgresData s ev) ->
  (tid, o) ∈ emitted s \/
  (ev = Resolve tid (payload o) /\ is_success o = true) \/
  (ev = Reject tid (payload o) /\ is_failure o = true).
Proof.
  intros Hwf Hin. destruct ev as [a|t p|t e].
  - left. destruct (watcher_of (type a)) as [i|] eqn:Hty.
    + by destruct (step_Dispatch_kind s a i Hwf Hty) as (r & k & h & _ & Hst);
        rewrite Hst in Hin.
    + by rewrite step_Dispatch_other in Hin.
  - destruct (running t s) eqn:Ht.
    + unfold running in Ht. destruct (tasks s !! t) as [[k h| | |]|] eqn:E; try done.
      destruct (wf_Running s t k h Hwf E) as (j & _ & Hown).
      rewrite (step_Resolve s t j k h p E Hown) in Hin. simpl in Hin.
      apply elem_of_app in Hin as [Hin|Hin]; [by left|].
      apply list_elem_of_singleton in Hin. injection Hin as -> ->.
      right. left. by destruct j.
    + left. by rewrite (proj1 (step_settle_idle s t p Ht)) in Hin.
  - destruct (running t s) eqn:Ht.
    + unfold running in Ht. destruct (tasks s !! t) as [[k h| | |]|] eqn:E; try done.
      destruct (wf_Running s t k h Hwf E) as (j & _ & Hown).
      rewrite (step_Reject s t j k h e E Hown) in Hin. simpl in Hin.
      apply elem_of_app in Hin as [Hin|Hin]; [by left|].
      apply list_elem_of_singleton in Hin. injection Hin as -> ->.
      right. right. by destruct j.
    + left. by rewrite (proj2 (step_settle_idle s t e Ht)) in Hin.
Qed.

Lemma emitted_run (evs : list event) (s : state) (tid : nat) (o : outcome) :
  wf s -> (tid, o) ∈ emitted (run tapPostgresData evs s) ->
  (tid, o) ∈ emitted s \/
  (Resolve tid (payload o) ∈ evs /\ is_success o = true) \/
  (Reject tid (payload o) ∈ evs /\ is_failure o = true).
Proof.
  revert s. induction evs as [|ev evs IH]; intros s Hwf Hin; [by left|].
  rewrite run_cons in Hin.
  destruct (IH _ (wf_step s ev Hwf) Hin) as [Hold|[[Hev Hs]|[Hev Hf]]].
  - destruct (emitted_step s ev tid o Hwf Hold) as [?|[[-> Hs]|[-> Hf]]].
    + by left.
    + right. left. split; [left|done].
    + right. right. split; [left|done].
  - right. left. split; [by right|done].
  - right. right. split; [by right|done].
Qed.

(** X3. Where an outcome comes from. Every outcome put in a run answers a
    settlement of the call of the task that put it: a success event carries
    the payload of a fulfilment of that call, a failure event the error of
    a rejection of it. No outcome is put without a response, and none with
    another payload. *)
Theorem outcomes_come_from_responses (st : Store) (es : list event)
    (tid : nat) (o : outcome) :
  (tid, o) ∈ emitted (run tapPostgresData es (init st)) ->
  (Resolve tid (payload o) ∈ es /\ is_success o = true) \/
  (Reject tid (payload o) ∈ es /\ is_failure o = true).
Proof.
  intros Hin. destruct (emitted_run es (init st) tid o (wf_init st) Hin) as [Hnil|H]; [|done].
  simpl in Hnil. by apply elem_of_nil in Hnil.
Qed.

Lemma outcomes_come_from_responses_witness :
  Reject 0 (VStr "status 500")
    ∈ [Dispatch (sample_update "s1"); Reject 0 (VStr "status 500")] /\
  is_failure (updateStreamToReplicateError (VStr "status 500")) = true.
Proof.
  destruct (outcomes_come_from_responses sample_store
              [Dispatch (sample_update "s1"); Reject 0 (VStr "status 500")]
              0 (updateStreamToReplicateError (VStr "status 500")))
    as [[_ Hs]|H]; [left | discriminate Hs | exact H].
Defined.

Lemma answers_init (st : Store) : answers (init st).
Proof.
  split.
  - intros tid k h. simpl. by rewrite lookup_empty.
  - intros tid o Hin. by apply elem_of_nil in Hin.
Qed.

Lemma answers_forked (i : nat) (r : request_args) (k h : value -> saga unit)
    (a : action) (s : state) :
  answers s -> owned i k h -> http_method r = verb i ->
  answers (forked i r k h (to_store a s)).
Proof.
  intros [Hrun Hput] Hown Hverb. split.
  - intros tid k' h' Hin.
    apply forked_Running in Hin as [(-> & -> & ->)|(_ & _ & Hin)].
    + exists r, i. split; [|done]. simpl. apply elem_of_app. right. left.
    + destruct (Hrun tid k' h' Hin) as (r' & j & Hr & Hrest).
      exists r', j. split; [|done]. simpl. apply elem_of_app. by left.
  - intros tid o Hin. destruct (Hput tid o Hin) as (r' & j & v & Hr & Hrest).
    exists r', j, v. split; [|done]. simpl. apply elem_of_app. by left.
Qed.

Lemma answers_settled (tid j : nat) (o : outcome) (v : value)
    (k h : value -> saga unit) (s : state) :
  answers s -> tasks s !! tid = Some (Running k h) -> owned j k h ->
  o = success_event j v \/ o = failure_event j v ->
  answers (settled tid o s).
Proof.
  intros [Hrun Hput] Htid Hown Ho. split.
  - intros t k' h'. simpl. rewrite lookup_insert. case_decide; [done|]. apply Hrun.
  - intros t o' Hin. simpl in Hin. apply elem_of_app in Hin as [Hin|Hin].
    + by apply Hput.
    + apply list_elem_of_singleton in Hin. injection Hin as -> ->.
      destruct (Hrun tid k h Htid) as (r & i & Hr & Hown' & Hverb).
      assert (i = j) as -> by (by apply (owned_unique i j k h)).
      exists r, j, v. split; [done|]. split; [apply Hown|]. done.
Qed.

Lemma answers_step (s : state) (ev : event) :
  wf s -> answers s -> answers (step tapPostgresData s ev).
Proof.
  intros Hwf Hans. destruct ev as [a|t p|t e].
  - destruct (type a) eqn:Hty.
    + rewrite step_load_closed by done.
      apply answers_forked; [done|apply owned_getStreams|done].
    + rewrite step_update_closed by done.
      apply answers_forked; [done|apply owned_updateStreamToReplicate|done].
    + by rewrite step_Dispatch_other by (by rewrite Hty).
  - destruct (running t s) eqn:Ht.
    + unfold running in Ht. destruct (tasks s !! t) as [[k h| | |]|] eqn:E; try done.
      destruct (wf_Running s t k h Hwf E) as (j & _ & Hown).
      rewrite (step_Resolve s t j k h p E Hown).
      apply (answers_settled t j _ p k h); auto.
    + by rewrite (proj1 (step_settle_idle s t p Ht)).
  - destruct (running t s) eqn:Ht.
    + unfold running in Ht. destruct (tasks s !! t) as [[k h| | |]|] eqn:E; try done.
      destruct (wf_Running s t k h Hwf E) as (j & _ & Hown).
      rewrite (step_Reject s t j k h e E Hown).
      apply (answers_settled t j _ e k h); auto.
    + by rewrite (proj2 (step_settle_idle s t e Ht)).
Qed.

Lemma answers_run (evs : list event) (s : state) :
  wf s -> answers s -> answers (run tapPostgresData evs s).
Proof.
  revert s. induction evs as [|ev evs IH]; intros s Hwf Hans; [done|].
  rewrite run_cons. apply IH; [by apply wf_step|by apply answers_step].
Qed.

Lemma answers_reachable (st : Store) (evs : list event) :
  answers (run tapPostgresData evs (init st)).
Proof. apply answers_run; [apply wf_init|apply answers_init]. Qed.

(** X2. An outcome answers a request of its own task and kind. In every
    run, the task that has put an outcome has issued a request before; the
    events of the stream list come only from tasks that issued the GET, and
    the events of the update only from tasks that issued the PATCH. *)
Theorem outcome_matches_request (st : Store) (es : list event) (tid : nat) (o : outcome) :
  let s := run tapPostgresData es (init st) in
  (tid, o) ∈ emitted s ->
  exists r, (tid, r) ∈ requests s /\
    match o with
    | streamsLoaded _ | streamsLoadedError _ => http_method r = "GET"
    | updateStreamToReplicateDone _ | updateStreamToReplicateError _ =>
        http_method r = "PATCH"
    end.
Proof.
  intros s Hin. destruct (answers_reachable st es) as [Hrun Hput]. fold s in Hrun, Hput.
  destruct (Hput tid o Hin) as (r & i & v & Hr & Hi & Hverb & Ho).
  exists r. split; [done|].
  destruct i as [|[|i]]; [| |lia]; simpl in Hverb, Ho; by destruct Ho as [-> | ->].
Qed.

Lemma outcome_matches_request_witness :
  exists r,
    (1, r) ∈ requests (run tapPostgresData
                         [Dispatch (sample_load "t1" "tp1"); Dispatch (sample_update "s1");
                          Resolve 1 (VStr "ok"); Resolve 0 (VArr [])]
                         (init sample_store)) /\
    http_method r = "PATCH".
Proof.
  apply (outcome_matches_request sample_store
           [Dispatch (sample_load "t1" "tp1"); Dispatch (sample_update "s1");
            Resolve 1 (VStr "ok"); Resolve 0 (VArr [])]
           1 (updateStreamToReplicateDone (VStr "ok"))).
  left.
Defined.

(** X5. One task in flight per kind. In every run, two tasks that both wait
    for their calls have issued requests of different methods: at most one
    GET of the stream list and at most one PATCH of a stream are awaited at
    any time, however many triggers were dispatched. *)
Theorem one_in_flight_per_kind (st : Store) (es : list event)
    (tid1 tid2 : nat) (r1 r2 : request_args) :
  let s := run tapPostgresData es (init st) in
  running tid1 s = true -> running tid2 s = true ->
  tid1 <> tid2 ->
  (tid1, r1) ∈ requests s -> (tid2, r2) ∈ requests s ->
  http_method r1 <> http_method r2.
Proof.
  intros s Hrun1 Hrun2 Hne Hr1 Hr2 Hsame. apply Hne.
  assert (wf s) as Hwf by apply wf_reachable.
  destruct (answers_reachable st es) as [Hans _]. fold s in Hans.
  destruct (requests_run es (init st) (wf_init st)) as [Hsnd Hseq].
  fold s in Hsnd, Hseq. simpl in Hsnd, Hseq.
  assert (fst <$> requests s = seq 0 (length (requests s))) as Hnum.
  { rewrite Hseq. f_equal. by rewrite <- Hsnd, length_fmap. }
  assert (forall tid r, running tid s = true -> (tid, r) ∈ requests s ->
            exists i, i < 2 /\ lastTask s !! i = Some tid /\ http_method r = verb i) as Hkind.
  { intros tid r Hrun Hr. unfold running in Hrun.
    destruct (tasks s !! tid) as [[k h| | |]|] eqn:E; try done.
    destruct (wf_Running s tid k h Hwf E) as (j & Hlast & Hown).
    destruct (Hans tid k h E) as (r' & i & Hr' & Hown' & Hverb).
    assert (i = j) as -> by (by apply (owned_unique i j k h)).
    assert (r = r') as -> by (by apply (requests_NoDup s tid)).
    exists j. split; [apply Hown|done]. }
  destruct (Hkind tid1 r1 Hrun1 Hr1) as (i1 & Hi1 & Hl1 & Hv1).
  destruct (Hkind tid2 r2 Hrun2 Hr2) as (i2 & Hi2 & Hl2 & Hv2).
  assert (i1 = i2) as ->.
  { rewrite Hv1, Hv2 in Hsame.
    destruct i1 as [|[|i1]], i2 as [|[|i2]]; try lia; discriminate. }
  congruence.
Qed.

(** A load and an update in flight together. *)
Lemma one_in_flight_per_kind_witness :
  http_method (Request "http://localhost:5000/targets/t1/taps/tp1/streams" None) <>
  http_method (Request "http://localhost:5000/targets/t1/taps/tp1/streams/s1"
                 (Some (Options "PATCH" [("Content-Type", "application/json")]
                          (JSON_stringify (params (sample_update "s1")))))).
Proof.
  apply (one_in_flight_per_kind sample_store
           [Dispatch (sample_load "t1" "tp1"); Dispatch (sample_update "s1")] 0 1);
    [reflexivity | reflexivity | lia | left | right; left].
Defined.

(** ** Errors stay inside the workers *)

Lemma getStreams_guarded (a : action) : guarded (getStreams a).
Proof. rewrite getStreams_unfold. repeat constructor. Qed.

Lemma updateStreamToReplicate_guarded (a : action) : guarded (updateStreamToReplicate a).
Proof. rewrite updateStreamToReplicate_unfold. repeat constructor. Qed.

Lemma unharmed_with (s s' : state) :
  alive s' = alive s -> tasks s' = tasks s -> unharmed s -> unharmed s'.
Proof. intros Ha Ht (? & ? & ?). unfold unharmed. rewrite Ha, Ht. done. Qed.

Lemma set_task_unharmed (tid : nat) (st : status) (s : state) :
  unharmed s ->
  (forall e, st <> Aborted e) ->
  (forall k h, st = Running k h -> (forall v, guarded (k v)) /\ (forall e, guarded (h e))) ->
  unharmed (set_task tid st s).
Proof.
  intros (Hal & Hab & Hrun) Hst Hg. split; [done|]. split.
  - intros t e. simpl. rewrite lookup_insert. case_decide; [|apply Hab].
    intros [= Heq]. by apply (Hst e).
  - intros t k h. simpl. rewrite lookup_insert. case_decide; [|apply Hrun].
    intros [= Heq]. by apply Hg.
Qed.

Lemma exec_unharmed (tid : nat) (m : saga unit) (s : state) :
  guarded m -> unharmed s -> unharmed (exec tid m s).
Proof.
  intros Hg. revert s.
  induction Hg as [u|r k h Hk _ Hh _|o k _ IH|sel k _ IH]; intros s Hs; simpl.
  - apply set_task_unharmed; done.
  - apply set_task_unharmed; [by apply (unharmed_with s)|done|].
    intros k' h' [= <- <-]. done.
  - apply IH. by apply (unharmed_with s).
  - by apply IH.
Qed.

Lemma cancel_unharmed (t : option nat) (s : state) : unharmed s -> unharmed (cancel t s).
Proof.
  intros Hs. destruct t as [t|]; simpl; [|done].
  destruct (tasks s !! t) as [[]|]; try done.
  apply set_task_unharmed; done.
Qed.

Section Survival.

(** Any root saga of [takeLatest] watchers whose workers let no exception
    out. *)
Variable root : list watcher.
Hypothesis root_guarded : Forall (fun w => forall b, guarded (snd w b)) root.

Lemma turn_unharmed (i : nat) (w : watcher) (a : action) (s : state) :
  (forall b, guarded (snd w b)) -> unharmed s -> unharmed (takeLatest_turn i w a s).
Proof.
  intros Hw Hs. unfold takeLatest_turn.
  destruct (alive s && bool_decide (type a = fst w)); [|done].
  unfold fork. apply exec_unharmed; [done|].
  apply (unharmed_with (cancel (lastTask s !! i) s)); [done..|]. by apply cancel_unharmed.
Qed.

Lemma offer_unharmed (a : action) (ws : list watcher) (i : nat) (s : state) :
  Forall (fun w => forall b, guarded (snd w b)) ws ->
  unharmed s -> unharmed (offer a i ws s).
Proof.
  intros Hws. revert i s.
  induction Hws as [|w ws Hw _ IH]; intros i s Hs; simpl; [done|].
  apply IH. by apply turn_unharmed.
Qed.

Lemma step_unharmed (ev : event) (s : state) : unharmed s -> unharmed (step root s ev).
Proof.
  intros Hs. destruct ev as [a|t p|t e]; simpl.
  - apply offer_unharmed; [exact root_guarded|]. by apply (unharmed_with s).
  - destruct (tasks s !! t) as [[k h| | |]|] eqn:E; try done.
    apply exec_unharmed; [|done]. by apply (proj2 (proj2 Hs) t k h E).
  - destruct (tasks s !! t) as [[k h| | |]|] eqn:E; try done.
    apply exec_unharmed; [|done]. by apply (proj2 (proj2 Hs) t k h E).
Qed.

Lemma run_unharmed (evs : list event) (s : state) :
  unharmed s -> unharmed (run root evs s).
Proof.
  revert s. induction evs as [|ev evs IH]; intros s Hs; [done|].
  rewrite run_cons. by apply IH, step_unharmed.
Qed.

End Survival.


(** The same watcher around a worker without [try]/[catch]: one rejected
    call ends the root saga, and the next trigger issues no request. *)
Example unguarded_worker_stops_root :
  let s := run [takeLatest LOAD_STREAMS unguarded_worker]
             [Dispatch (sample_load "t1" "tp1"); Reject 0 (VStr "status 500");
              Dispatch (sample_load "t1" "tp1")]
             (init sample_store) in
  alive s = false /\ length (requests s) = 1 /\ emitted s = [].
Proof. repeat split. Qed.

(** ** Bursts of triggers *)

(** X6. A burst of triggers. When several triggers of one watched kind are
    dispatched in a row, each of them but the last is superseded by the
    next: whatever follows, none of their tasks ever puts an outcome. *)
Theorem burst_keeps_last (st : Store) (es0 es : list event) (burst : list action)
    (ty : action_type) (j : nat) :
  ty = LOAD_STREAMS \/ ty = UPDATE_STREAM_TO_REPLICATE ->
  Forall (fun a => type a = ty) burst ->
  S j < length burst ->
  let s0 := run tapPostgresData es0 (init st) in
  outcomes_of (nextId s0 + j) (run tapPostgresData ((Dispatch <$> burst) ++ es) s0) = [].
Proof.
  intros Hkind Hall Hj s0. assert (wf s0) as Hwf by apply wf_reachable.
  clearbody s0. revert s0 j Hwf Hj.
  induction Hall as [|a burst Ha Hall IH]; intros s0 j Hwf Hj; [simpl in Hj; lia|].
  assert (type a = LOAD_STREAMS \/ type a = UPDATE_STREAM_TO_REPLICATE) as Hka
    by (by rewrite Ha).
  destruct (is_trigger _ Hka) as [i Hi].
  destruct j as [|j].
  - destruct Hall as [|b burst Hb Hall]; [simpl in Hj; lia|].
    rewrite Nat.add_0_r.
    destruct (dispatch_in_flight s0 a i Hwf Hi) as (k & h & _ & _ & Hnone).
    rewrite !fmap_cons.
    exact (supersession s0 a b [] (fmap (M:=list) Dispatch burst ++ es) Hwf Hka
             (eq_trans Hb (eq_sym Ha)) Hnone).
  - rewrite fmap_cons.
    change (run tapPostgresData ((Dispatch a :: (Dispatch <$> burst)) ++ es) s0)
      with (run tapPostgresData ((Dispatch <$> burst) ++ es)
              (step tapPostgresData s0 (Dispatch a))).
    assert (nextId (step tapPostgresData s0 (Dispatch a)) = S (nextId s0)) as Hn.
    { by destruct (step_Dispatch_kind s0 a i Hwf Hi) as (r & k & h & _ & ->). }
    replace (nextId s0 + S j) with (nextId (step tapPostgresData s0 (Dispatch a)) + j)
      by lia.
    apply IH; [by apply wf_step|]. simpl in Hj. lia.
Qed.

(** Three loads in a row, then the three responses in reverse order. *)
Lemma burst_keeps_last_witness :
  outcomes_of 1
    (run tapPostgresData
       [Dispatch (sample_load "t1" "a"); Dispatch (sample_load "t1" "b");
        Dispatch (sample_load "t1" "c");
        Resolve 2 (VStr "C"); Resolve 1 (VStr "B"); Resolve 0 (VStr "A")]
       (init sample_store)) = [].
Proof.
  apply (burst_keeps_last sample_store []
           [Resolve 2 (VStr "C"); Resolve 1 (VStr "B"); Resolve 0 (VStr "A")]
           [sample_load "t1" "a"; sample_load "t1" "b"; sample_load "t1" "c"]
           LOAD_STREAMS 1).
  - left. reflexivity.
  - repeat constructor.
  - simpl. lia.
Defined.

(** ** The text of the requests *)

Lemma append_assoc (x y z : string) : (x +:+ y) +:+ z = x +:+ (y +:+ z).
Proof. induction x as [|c x IH]; [done|]. exact (f_equal (String c) IH). Qed.

(** X7. Fields are not escaped. A slash in a field moves the border between
    the segments of the path: a load for target [x/taps/y] and tap [z] and
    a load for target [x] and tap [y/taps/z] issue the same request, and so
    do the two updates with these fields and the same stream and params. *)
Theorem fields_not_escaped (st : Store) (es : list event) (x y z : string)
    (stream prm : value) :
  let s := run tapPostgresData es (init st) in
  let left_target := VStr (x +:+ "/taps/" +:+ y) in
  let right_tap := VStr (y +:+ "/taps/" +:+ z) in
  issued s (step tapPostgresData s
              (Dispatch (Action LOAD_STREAMS left_target (VStr z) stream prm))) =
  issued s (step tapPostgresData s
              (Dispatch (Action LOAD_STREAMS (VStr x) right_tap stream prm))) /\
  issued s (step tapPostgresData s
              (Dispatch (Action UPDATE_STREAM_TO_REPLICATE left_target (VStr z) stream prm))) =
  issued s (step tapPostgresData s
              (Dispatch (Action UPDATE_STREAM_TO_REPLICATE (VStr x) right_tap stream prm))).
Proof.
  intros s left_target right_tap. assert (wf s) as Hwf by apply wf_reachable.
  subst left_target right_tap. split.
  - rewrite !step_load_closed, !issued_forked by done. simpl.
    by rewrite !append_assoc.
  - rewrite !step_update_closed, !issued_forked by done. simpl.
    by rewrite !append_assoc.
Qed.

Lemma SerializeJSON_None (v : value) : SerializeJSON v = None <-> v = VUndefined.
Proof. destruct v as [| |[]| | |]; simpl; split; congruence. Qed.


(** ** The end of a task *)

Lemma stop_Completed (st : status) : stop st = Completed -> st = Completed.
Proof. by destruct st. Qed.

Lemma reported_step (s : state) (ev : event) :
  wf s -> reported s -> reported (step tapPostgresData s ev).
Proof.
  intros Hwf Hrep. destruct ev as [a|t p|t e].
  - destruct (watcher_of (type a)) as [i|] eqn:Hty.
    + destruct (step_Dispatch_kind s a i Hwf Hty) as (r & k & h & _ & ->).
      intros tid. rewrite forked_tasks.
      change (emitted (forked i r k h (to_store a s))) with (emitted s).
      change (tasks (to_store a s)) with (tasks s).
      change (lastTask (to_store a s)) with (lastTask s).
      destruct (decide (nextId (to_store a s) = tid)); [discriminate|].
      destruct (decide (lastTask s !! i = Some tid)); [|apply Hrep].
      destruct (tasks s !! tid) as [x|] eqn:E; simpl; [|done].
      intros [= Hx]. apply stop_Completed in Hx. subst x. by apply Hrep.
    + by rewrite step_Dispatch_other.
  - destruct (running t s) eqn:Ht.
    + unfold running in Ht. destruct (tasks s !! t) as [[k h| | |]|] eqn:E; try done.
      destruct (wf_Running s t k h Hwf E) as (j & _ & Hown).
      rewrite (step_Resolve s t j k h p E Hown).
      intros tid. simpl. rewrite lookup_insert. case_decide.
      * subst tid. intros _. eexists. apply elem_of_app. right. left.
      * intros Hc. destruct (Hrep tid Hc) as [o Ho]. exists o. apply elem_of_app. by left.
    + by rewrite (proj1 (step_settle_idle s t p Ht)).
  - destruct (running t s) eqn:Ht.
    + unfold running in Ht. destruct (tasks s !! t) as [[k h| | |]|] eqn:E; try done.
      destruct (wf_Running s t k h Hwf E) as (j & _ & Hown).
      rewrite (step_Reject s t j k h e E Hown).
      intros tid. simpl. rewrite lookup_insert. case_decide.
      * subst tid. intros _. eexists. apply elem_of_app. right. left.
      * intros Hc. destruct (Hrep tid Hc) as [o Ho]. exists o. apply elem_of_app. by left.
    + by rewrite (proj2 (step_settle_idle s t e Ht)).
Qed.

Lemma reported_run (evs : list event) (s : state) :
  wf s -> reported s -> reported (run tapPostgresData evs s).
Proof.
  revert s. induction evs as [|ev evs IH]; intros s Hwf Hrep; [done|].
  rewrite run_cons. apply IH; [by apply wf_step|by apply reported_step].
Qed.

Lemma elem_outcomes_of (s : state) (tid : nat) (o : outcome) :
  (tid, o) ∈ emitted s -> o ∈ outcomes_of tid s.
Proof.
  intros Hin. unfold outcomes_of. apply list_elem_of_omap.
  exists (tid, o). split; [done|]. simpl. by rewrite Nat.eqb_refl.
Qed.

